(** * Verification of the Novita model catalog reconciler

    Shallow embedding of [models/llm/sync_models.py] and
    [provider/novita.py].

    Modelling conventions.
    - Python [str] is [string]: the UTF-8 bytes of the text.  Case
      mapping ([lower], [title]), whitespace and the regular expression
      class [\d] are modelled on ASCII; every other byte is left as it is.
    - Python [int] is [Z].  The one [float] of the program, the quotient
      in [convert_price], is modelled by the exact rational it
      approximates; binary64 rounding does not change the six printed
      decimals for prices below 2^52.
    - A parsed YAML document is a [value]; mappings keep their key order
      and have string keys, floats do not occur.
    - The directory is a finite map from file names to file contents;
      [os.listdir] enumerates it in the map's canonical order.  Aliases
      between parts of a document and errors of the file system other
      than a missing or unreadable file are not modelled.
    - The catalog is the list under the key [data] of the response, each
      entry a record with the fields of the specification; a field that
      the script reads with [.get] may be absent.
    - Printing, writing and removing are recorded, in order, in a trace. *)

From Stdlib Require Import ZArith QArith_base Ascii String List Lia.
From Stdlib Require Import DecimalString DecimalN DecimalPos.
From stdpp Require Import base option list gmap strings.

Local Open Scope Z_scope.

(** ** Python string methods *)

Module Str.

Definition is_upper (c : ascii) : bool :=
  let n := nat_of_ascii c in (65 <=? n)%nat && (n <=? 90)%nat.
Definition is_lower (c : ascii) : bool :=
  let n := nat_of_ascii c in (97 <=? n)%nat && (n <=? 122)%nat.
Definition is_digit (c : ascii) : bool :=
  let n := nat_of_ascii c in (48 <=? n)%nat && (n <=? 57)%nat.
Definition is_cased (c : ascii) : bool := is_upper c || is_lower c.
(** [str.isspace] on ASCII: tab, LF, VT, FF, CR, FS, GS, RS, US, space. *)
Definition is_space (c : ascii) : bool :=
  let n := nat_of_ascii c in
  ((9 <=? n)%nat && (n <=? 13)%nat) || ((28 <=? n)%nat && (n <=? 32)%nat).

Definition to_lower (c : ascii) : ascii :=
  if is_upper c then ascii_of_nat (nat_of_ascii c + 32) else c.
Definition to_upper (c : ascii) : ascii :=
  if is_lower c then ascii_of_nat (nat_of_ascii c - 32) else c.

(** [s.lower()] *)
Fixpoint lower (s : string) : string :=
  match s with
  | EmptyString => EmptyString
  | String c s' => String (to_lower c) (lower s')
  end.

(** [s.title()]: a cased character is upper-cased after an uncased one
    and lower-cased after a cased one. *)
Fixpoint title_from (previous_is_cased : bool) (s : string) : string :=
  match s with
  | EmptyString => EmptyString
  | String c s' =>
      String (if previous_is_cased then to_lower c else to_upper c)
             (title_from (is_cased c) s')
  end.
Definition title (s : string) : string := title_from false s.

(** [s.startswith(p)] *)
Fixpoint startswith (p s : string) : bool :=
  match p, s with
  | EmptyString, _ => true
  | String a p', String b s' => Ascii.eqb a b && startswith p' s'
  | String _ _, EmptyString => false
  end.

(** [sub in s] *)
Fixpoint contains (sub s : string) : bool :=
  startswith sub s ||
  match s with
  | EmptyString => false
  | String _ s' => contains sub s'
  end.

(** [s.endswith(p)] *)
Definition endswith (p s : string) : bool :=
  startswith (String.rev p) (String.rev s).

(** [s.rstrip(chars)], by the predicate that recognises [chars]. *)
Fixpoint rstrip_by (p : ascii → bool) (s : string) : string :=
  match s with
  | EmptyString => EmptyString
  | String c s' =>
      match rstrip_by p s' with
      | EmptyString => if p c then EmptyString else String c EmptyString
      | t => String c t
      end
  end.
Fixpoint lstrip_by (p : ascii → bool) (s : string) : string :=
  match s with
  | EmptyString => EmptyString
  | String c s' => if p c then lstrip_by p s' else s
  end.
Definition in_chars (chars : string) (c : ascii) : bool :=
  existsb (Ascii.eqb c) (list_ascii_of_string chars).
Definition rstrip (chars s : string) : string := rstrip_by (in_chars chars) s.
(** [s.rstrip()] and [s.strip()] remove white space. *)
Definition rstrip_ws (s : string) : string := rstrip_by is_space s.
Definition strip (s : string) : string := rstrip_by is_space (lstrip_by is_space s).

(** [s.split(sep)] for a one-character separator: never empty. *)
Fixpoint split (sep : ascii) (s : string) : list string :=
  match s with
  | EmptyString => [EmptyString]
  | String c s' =>
      if Ascii.eqb c sep then EmptyString :: split sep s'
      else match split sep s' with
           | [] => [String c EmptyString]
           | w :: ws => String c w :: ws
           end
  end.

(** [sep.join(l)] *)
Fixpoint join (sep : string) (l : list string) : string :=
  match l with
  | [] => EmptyString
  | [x] => x
  | x :: l' => x +:+ sep +:+ join sep l'
  end.

(** Decimal digit of a character, and [int(s)] on a string of digits. *)
Definition digit_of (c : ascii) : Z := Z.of_nat (nat_of_ascii c) - 48.
Definition char_of_digit (d : Z) : ascii := ascii_of_nat (Z.to_nat d + 48).
Fixpoint int_of_digits_from (acc : Z) (s : string) : Z :=
  match s with
  | EmptyString => acc
  | String c s' => int_of_digits_from (10 * acc + digit_of c) s'
  end.
Definition int_of_digits (s : string) : Z := int_of_digits_from 0 s.

(** [str(n)] for a natural number. *)
Definition of_N (n : N) : string := NilZero.string_of_uint (N.to_uint n).

(** [width] decimal digits of [r], most significant first, zero padded. *)
Fixpoint zero_padded (width : nat) (r : Z) : string :=
  match width with
  | O => EmptyString
  | S w => zero_padded w (r / 10) +:+ String (char_of_digit (r mod 10)) EmptyString
  end.

(** Every character of [s] satisfies [q]. *)
Fixpoint all_chars (q : ascii → bool) (s : string) : bool :=
  match s with
  | EmptyString => true
  | String c s' => q c && all_chars q s'
  end.

(** [c * k] *)
Fixpoint repeat_char (c : ascii) (k : nat) : string :=
  match k with
  | O => EmptyString
  | S k' => String c (repeat_char c k')
  end.

(** [s] is empty or starts with something else than a digit. *)
Definition no_leading_digit (s : string) : Prop :=
  match s with
  | EmptyString => True
  | String c _ => is_digit c = false
  end.

End Str.

(** ** Price conversion *)

(** Round the quotient [a / b] ([b > 0]) to the nearest integer, ties to
    even: the rounding of [format]. *)
Definition round_half_even (a b : Z) : Z :=
  let q := a / b in
  let r := a mod b in
  if 2 * r <? b then q
  else if b <? 2 * r then q + 1
  else if Z.even q then q else q + 1.

(** [f"{x:.6f}"] *)
Definition format_6f (x : Q) : string :=
  let scaled := Z.abs (round_half_even (Qnum x * 1000000) (Zpos (Qden x))) in
  (if Qnum x <? 0 then "-" else "") +:+
  Str.of_N (Z.to_N (scaled / 1000000)) +:+ "." +:+
  Str.zero_padded 6 (scaled mod 1000000).

Definition convert_price (price_per_m : Z) : string :=
  let per_token_price := Qmake price_per_m 1000000 in
  Str.rstrip "." (Str.rstrip "0" (format_6f per_token_price)).

(** The digits [convert_price] prints after the integer part. *)
Definition price_fraction (r : Z) : string :=
  match Str.rstrip "0" (Str.zero_padded 6 r) with
  | EmptyString => EmptyString
  | t => "." +:+ t
  end.

(** The stored price as the specification words it: [raw / 100], to the
    two decimals this quotient can have, without trailing zeros and
    without a trailing point. *)
Definition stored_price_spec (raw : Z) : string :=
  Str.rstrip "." (Str.rstrip "0"
    (Str.of_N (Z.to_N (raw / 100)) +:+ "." +:+ Str.zero_padded 2 (raw mod 100))).

(** ** Python dictionaries

    A [dict] keeps insertion order: assigning to a key that is present
    replaces its value in place, assigning to a new key appends. *)

Section odict.
Context {K : Type} `{EqDecision K} {V : Type}.

Fixpoint oget (k : K) (d : list (K * V)) : option V :=
  match d with
  | [] => None
  | (k', v) :: d' => if decide (k = k') then Some v else oget k d'
  end.

Fixpoint oset (k : K) (v : V) (d : list (K * V)) : list (K * V) :=
  match d with
  | [] => [(k, v)]
  | (k', v') :: d' =>
      if decide (k = k') then (k, v) :: d' else (k', v') :: oset k v d'
  end.

Definition okeys (d : list (K * V)) : list K := d.*1.
End odict.

(** ** Values of parsed documents *)

#[warnings="-register-all"]
Inductive value :=
  | VNone
  | VBool (b : bool)
  | VInt (z : Z)
  | VStr (s : string)
  | VList (l : list value)
  | VDict (d : list (string * value)).

Abbreviation pydict := (list (string * value)).

(** The scalars a catalog record contributes to a comparison. *)
Inductive scalar :=
  | SNone
  | SInt (z : Z)
  | SStr (s : string).

Definition of_scalar (x : scalar) : value :=
  match x with
  | SNone => VNone
  | SInt z => VInt z
  | SStr s => VStr s
  end.

(** [v == x] for a scalar [x]; [True == 1] and [False == 0] hold in Python. *)
Definition py_eq (v : value) (x : scalar) : bool :=
  match v, x with
  | VNone, SNone => true
  | VInt a, SInt b => a =? b
  | VBool a, SInt b => (if a then 1 else 0) =? b
  | VStr a, SStr b => bool_decide (a = b)
  | _, _ => false
  end.

(** [bool(v)] *)
Definition truthy (v : value) : bool :=
  match v with
  | VNone => false
  | VBool b => b
  | VInt z => negb (z =? 0)
  | VStr s => negb (bool_decide (s = ""))
  | VList l => negb (bool_decide (l = []))
  | VDict d => negb (bool_decide (d = []))
  end.

(** ** Exceptions and results *)

Inductive exn :=
  | KeyError (key : string)
  | AttributeError
  | TypeError
  | FileNotFoundError (name : string).

Inductive result (A : Type) :=
  | Ok (a : A)
  | Raise (e : exn).
Arguments Ok {A} a.
Arguments Raise {A} e.

Definition result_bind {A B} (f : A → result B) (r : result A) : result B :=
  match r with
  | Ok a => f a
  | Raise e => Raise e
  end.
#[global] Instance result_ret : MRet result := λ A, Ok.
#[global] Instance result_mbind : MBind result := λ A B, result_bind.

(** [v.get(k)] *)
Definition py_get (v : value) (k : string) : result value :=
  match v with
  | VDict d => Ok (default VNone (oget k d))
  | _ => Raise AttributeError
  end.

(** [v[k]] for a string [k] *)
Definition py_getitem (v : value) (k : string) : result value :=
  match v with
  | VDict d => match oget k d with Some x => Ok x | None => Raise (KeyError k) end
  | _ => Raise TypeError
  end.

(** [v[k] = x] for a string [k] *)
Definition py_setitem (v : value) (k : string) (x : value) : result value :=
  match v with
  | VDict d => Ok (VDict (oset k x d))
  | _ => Raise TypeError
  end.

(** Keys of a [dict] or members of a [set]: the hashable values.  [True]
    and [1] are one key, as are [False] and [0]. *)
Inductive hkey :=
  | KNone
  | KInt (z : Z)
  | KStr (s : string).

#[global] Instance hkey_eq_dec : EqDecision hkey.
Proof. solve_decision. Defined.

Definition py_hash (v : value) : result hkey :=
  match v with
  | VNone => Ok KNone
  | VBool b => Ok (KInt (if b then 1 else 0))
  | VInt z => Ok (KInt z)
  | VStr s => Ok (KStr s)
  | VList _ | VDict _ => Raise TypeError
  end.

Fixpoint hash_all (l : list value) : result (list hkey) :=
  match l with
  | [] => Ok []
  | v :: l' => k ← py_hash v; ks ← hash_all l'; Ok (k :: ks)
  end.

(** [set(v)]: the members, as a list.  The members of a string are its
    characters; none of them is a feature tag, whose length exceeds one
    character, so the bytes stand for them here. *)
Definition py_set (v : value) : result (list hkey) :=
  match v with
  | VList l => hash_all l
  | VDict d => Ok (KStr <$> okeys d)
  | VStr s => Ok ((λ c, KStr (String c EmptyString)) <$> list_ascii_of_string s)
  | VNone | VBool _ | VInt _ => Raise TypeError
  end.

(** [set(a) == set(b)] on the member lists. *)
Definition set_eqb (a b : list hkey) : bool :=
  forallb (λ x, bool_decide (x ∈ b)) a && forallb (λ x, bool_decide (x ∈ a)) b.

(** ** Catalog records *)

(** One entry of the fetched catalog.  A field read with [.get] may be
    absent ([None]); [features] absent is the empty list. *)
Record api_model := ApiModel {
  m_id : string;
  m_display_name : option string;
  m_context_size : option Z;
  m_input_token_price_per_m : option Z;
  m_output_token_price_per_m : option Z;
  m_features : list string;
  m_description : option string;
}.

(** [api_model[key]] on an optional field *)
Definition required {A} (key : string) (o : option A) : result A :=
  match o with
  | Some a => Ok a
  | None => Raise (KeyError key)
  end.

(** ** Feature inference *)

Inductive ModelFeature :=
  | TOOL_CALL
  | MULTI_TOOL_CALL
  | AGENT_THOUGHT
  | VISION
  | STREAM_TOOL_CALL
  | DOCUMENT
  | VIDEO
  | AUDIO
  | STRUCTURED_OUTPUT.

Definition feature_value (f : ModelFeature) : string :=
  match f with
  | TOOL_CALL => "tool-call"
  | MULTI_TOOL_CALL => "multi-tool-call"
  | AGENT_THOUGHT => "agent-thought"
  | VISION => "vision"
  | STREAM_TOOL_CALL => "stream-tool-call"
  | DOCUMENT => "document"
  | VIDEO => "video"
  | AUDIO => "audio"
  | STRUCTURED_OUTPUT => "structured-output"
  end.

(** The longest prefix of digits of [s], and what follows it. *)
Fixpoint span_digits (s : string) : string * string :=
  match s with
  | EmptyString => (EmptyString, EmptyString)
  | String c s' =>
      if Str.is_digit c
      then let '(ds, rest) := span_digits s' in (String c ds, rest)
      else (EmptyString, s)
  end.

(** [re.search(r'(\d+)b', s)]: group 1 of the leftmost match.  At a
    given start the greedy [\d+] takes the whole run of digits;
    giving digits back leaves a digit where [b] is required, so the
    match at that start succeeds exactly when [b] follows the run. *)
Fixpoint re_search_size (s : string) : option string :=
  match s with
  | EmptyString => None
  | String _ s' =>
      let '(digits, rest) := span_digits s in
      if bool_decide (digits ≠ "") && Str.startswith "b" rest
      then Some digits
      else re_search_size s'
  end.

Definition thinking_keywords : list string :=
  ["思维"; "推理"; "思考"].

Definition map_api_feature (api_feature : string) : list string :=
  if decide (api_feature = "function-calling")
  then [feature_value TOOL_CALL; feature_value MULTI_TOOL_CALL;
        feature_value STREAM_TOOL_CALL]
  else if decide (api_feature = "structured-outputs")
  then [feature_value STRUCTURED_OUTPUT]
  else if decide (api_feature = "vision")
  then [feature_value VISION]
  else [].

Definition has_agent_thought (api_model : api_model) : bool :=
  let model_id := m_id api_model in
  let description := default "" (m_description api_model) in
  let has_agent_thought := false in
  let has_agent_thought :=
    if Str.contains "think" (Str.lower model_id) then true else has_agent_thought in
  let has_agent_thought :=
    if negb (bool_decide (description = "")) &&
       existsb (λ keyword, Str.contains keyword description) thinking_keywords
    then true else has_agent_thought in
  if negb has_agent_thought then
    match re_search_size (Str.lower model_id) with
    | Some group1 =>
        let size := Str.int_of_digits group1 in
        if 70 <? size then true else has_agent_thought
    | None => has_agent_thought
    end
  else has_agent_thought.

(** [list(set(features))]: the members without repetition, in the order
    of the set. *)
Definition list_of_set (l : list string) : list string :=
  elements (list_to_set l : gset string).

Definition determine_model_features (api_model : api_model) : list string :=
  let features := flat_map map_api_feature (m_features api_model) in
  let features :=
    if has_agent_thought api_model
    then features ++ [feature_value AGENT_THOUGHT] else features in
  list_of_set features.

(** *** The triggers of [agent-thought], as the specification words them *)

Definition mentions_thinking (api_model : api_model) : Prop :=
  Str.contains "think" (Str.lower (m_id api_model)) = true.

Definition description_has_keyword (api_model : api_model) : Prop :=
  ∃ keyword, keyword ∈ thinking_keywords ∧
    Str.contains keyword (default "" (m_description api_model)) = true.

(** [ds] is the number of a size token [<digits>b] somewhere in [s]. *)
Definition size_token (s ds : string) : Prop :=
  ds ≠ "" ∧ Str.all_chars Str.is_digit ds = true ∧
  Str.contains (ds +:+ "b") s = true.

(** [(\d+)b] matches at the very start of [s], with [ds] as group 1. *)
Definition match_at_start (s ds : string) : Prop :=
  ∃ post, s = ds +:+ "b" +:+ post ∧ ds ≠ "" ∧ Str.all_chars Str.is_digit ds = true.

(** [ds] is the number of the size token of [s] that starts first: after
    [pre], and no digits followed by [b] start before. *)
Definition leftmost_size_token (s ds : string) : Prop :=
  ∃ pre post,
    s = pre +:+ ds +:+ "b" +:+ post ∧
    ds ≠ "" ∧ Str.all_chars Str.is_digit ds = true ∧
    ∀ pre' ds' post',
      s = pre' +:+ ds' +:+ "b" +:+ post' →
      ds' ≠ "" → Str.all_chars Str.is_digit ds' = true →
      (String.length pre ≤ String.length pre')%nat.

(** The inference rule with "some size token exceeds 70" as third trigger. *)
Definition agent_thought_by_any_token (api_model : api_model) : Prop :=
  feature_value AGENT_THOUGHT ∈ determine_model_features api_model ↔
  mentions_thinking api_model ∨ description_has_keyword api_model ∨
  ∃ ds, size_token (Str.lower (m_id api_model)) ds ∧ 70 < Str.int_of_digits ds.

(** ** The definition template *)

Definition parameter_rule (name : string) (min max default : Z) : value :=
  VDict [("name", VStr name); ("use_template", VStr name);
         ("min", VInt min); ("max", VInt max); ("default", VInt default)].

Definition api_title (api_model : api_model) : string :=
  let stripped := Str.strip (default "" (m_display_name api_model)) in
  if decide (stripped = "") then m_id api_model else stripped.

Definition create_yaml_template (model_id : string) (api_model : api_model)
  : result pydict :=
  let label := VDict [("zh_Hans", VStr (api_title api_model));
                      ("en_US", VStr (api_title api_model))] in
  let features := VList (VStr <$> determine_model_features api_model) in
  context_size ← required "context_size" (m_context_size api_model);
  input ← required "input_token_price_per_m" (m_input_token_price_per_m api_model);
  output ← required "output_token_price_per_m" (m_output_token_price_per_m api_model);
  Ok [("model", VStr model_id);
      ("label", label);
      ("model_type", VStr "llm");
      ("features", features);
      ("model_properties",
        VDict [("mode", VStr "chat"); ("context_size", VInt context_size)]);
      ("parameter_rules",
        VList [parameter_rule "temperature" 0 2 1;
               parameter_rule "top_p" 0 1 1;
               parameter_rule "max_tokens" 1 2048 512;
               parameter_rule "frequency_penalty" (-2) 2 0;
               parameter_rule "presence_penalty" (-2) 2 0]);
      ("pricing",
        VDict [("input", VStr (convert_price input));
               ("output", VStr (convert_price output));
               ("unit", VStr "0.0001");
               ("currency", VStr "CNY")])].

(** ** The directory, the trace and the monad of the script *)

(** What a file holds: a document as [yaml.safe_load] reads it, plain
    text written by the script (the index: comment lines and list
    items, never a mapping), or something that cannot be opened or
    parsed. *)
Inductive file :=
  | FYaml (v : value)
  | FText (s : string)
  | FBad.

(** One reported change of a definition file. *)
Inductive change :=
  | ChContextSize (old : value) (new : scalar)
  | ChInputPrice (old : value) (new : string)
  | ChOutputPrice (old : value) (new : string)
  | ChLabels (old_zh_Hans old_en_US : value) (new : string)
  | ChFeatures (old : value) (new : list string).

Inductive message :=
  | MsgLoading (filename : string)
  | MsgWarnNotDict (filename : string)
  | MsgErrorLoading (filename : string)
  | MsgUpdated (filename : string)
  | MsgChange (c : change)
  | MsgNoChanges (filename : string)
  | MsgCreated (filename : string)
  | MsgDeleted (filename : string).

Inductive event :=
  | Print (m : message)
  | WriteFile (filename : string) (content : file)
  | RemoveFile (filename : string).

Record world := World {
  files : gmap string file;
  trace : list event;
}.

(** A computation changes the world and returns or raises; what was
    written before an exception stays written. *)
Definition M (A : Type) : Type := world → result A * world.

Definition M_ret {A} (a : A) : M A := λ w, (Ok a, w).
Definition M_bind {A B} (f : A → M B) (m : M A) : M B :=
  λ w, match m w with
       | (Ok a, w') => f a w'
       | (Raise e, w') => (Raise e, w')
       end.
#[global] Instance M_mret : MRet M := @M_ret.
#[global] Instance M_mbind : MBind M := @M_bind.

Definition lift {A} (r : result A) : M A := λ w, (r, w).
Definition emit (e : event) : M unit :=
  λ w, (Ok (), World (files w) (trace w ++ [e])).
Definition print (m : message) : M unit := emit (Print m).

Fixpoint for_each {A} (l : list A) (body : A → M unit) : M unit :=
  match l with
  | [] => mret ()
  | x :: l' => body x;; for_each l' body
  end.

Fixpoint for_fold {A S} (l : list A) (body : S → A → M S) (s : S) : M S :=
  match l with
  | [] => mret s
  | x :: l' => s' ← body s x; for_fold l' body s'
  end.

(** [os.listdir] *)
Definition listdir : M (list string) := λ w, (Ok (map_to_list (files w)).*1, w).

(** [os.remove] *)
Definition os_remove (filename : string) : M unit :=
  λ w, match files w !! filename with
       | Some _ =>
           (Ok (), World (delete filename (files w))
                         (trace w ++ [RemoveFile filename]))
       | None => (Raise (FileNotFoundError filename), w)
       end.

Definition write_file (filename : string) (content : file) : M unit :=
  λ w, (Ok (), World (<[filename := content]> (files w))
                     (trace w ++ [WriteFile filename content])).

Definition load_yaml_file (file_path : string) : M pydict :=
  λ w, match files w !! file_path with
       | Some (FYaml (VDict data)) => (Ok data, w)
       | Some (FYaml _) | Some (FText _) =>
           (print (MsgWarnNotDict file_path);; mret []) w
       | Some FBad | None =>
           (print (MsgErrorLoading file_path);; mret []) w
       end.

Definition save_yaml_file (file_path : string) (data : pydict) : M unit :=
  write_file file_path (FYaml (VDict data)).

(** ** The index file *)

Definition position_name : string := "_position.yaml".

Definition group_models (model_ids : list string) : list (string * list string) :=
  foldl (λ model_groups model_id,
           let provider := hd "" (Str.split "/" model_id) in
           let model_groups :=
             match oget provider model_groups with
             | None => oset provider [] model_groups
             | Some _ => model_groups
             end in
           oset provider (default [] (oget provider model_groups) ++ [model_id])
                model_groups)
        [] model_ids.

Definition position_lines (api_models : list api_model) : list string :=
  let model_ids := m_id <$> api_models in
  flat_map (λ '(provider, models),
              ("# " +:+ Str.title provider +:+ " Models")
                :: ((λ model_id, "- " +:+ model_id) <$> models) ++ [""])
           (group_models model_ids).

Definition newline : string := String "010" EmptyString.

Definition position_content (api_models : list api_model) : string :=
  Str.rstrip_ws (Str.join newline (position_lines api_models)) +:+ newline.

Definition create_position_yaml (api_models : list api_model) : M unit :=
  write_file position_name (FText (position_content api_models)).

(** The index, as the specification words it: the provider prefix of an
    identifier, the providers of a catalog in the order of their first
    appearance, the identifiers of one provider in catalog order, and
    the lines of one group. *)
Definition provider_of (model_id : string) : string :=
  hd "" (Str.split "/" model_id).

Fixpoint first_seen (l : list string) : list string :=
  match l with
  | [] => []
  | x :: l' => x :: filter (λ y, y ≠ x) (first_seen l')
  end.

Definition members_of (provider : string) (model_ids : list string) : list string :=
  filter (λ model_id, provider_of model_id = provider) model_ids.

Definition group_lines (model_ids : list string) (provider : string) : list string :=
  ("# " +:+ Str.title provider +:+ " Models")
    :: ((λ model_id, "- " +:+ model_id) <$> members_of provider model_ids) ++ [""].

(** ** Reconciliation *)

(** Lines 178-190: one file of the directory scan. *)
Definition scan_file (existing_files : list (hkey * string)) (filename : string)
  : M (list (hkey * string)) :=
  if negb (Str.endswith ".yaml" filename) ||
     bool_decide (filename ∈ ["check_yaml_consistency.py"; "fix_yaml_files.py"])
  then mret existing_files
  else
    print (MsgLoading filename);;
    yaml_data ← load_yaml_file filename;
    match yaml_data with
    | [] => mret existing_files
    | _ =>
        let model_id := default VNone (oget "model" yaml_data) in
        if truthy model_id
        then key ← lift (py_hash model_id);
             mret (oset key filename existing_files)
        else mret existing_files
    end.

(** Lines 199-236: the comparisons and in-place updates of one loaded
    definition, with the change lines they produce. *)
Definition update_context_size (api_model : api_model) (st : pydict * list change)
  : result (pydict * list change) :=
  let '(yaml_data, changes) := st in
  yaml_context_size ←
    py_get (default (VDict []) (oget "model_properties" yaml_data)) "context_size";
  let api_context_size := from_option SInt SNone (m_context_size api_model) in
  if negb (py_eq yaml_context_size api_context_size) then
    model_properties ← py_getitem (VDict yaml_data) "model_properties";
    model_properties ← py_setitem model_properties "context_size"
                                  (of_scalar api_context_size);
    Ok (oset "model_properties" model_properties yaml_data,
        changes ++ [ChContextSize yaml_context_size api_context_size])
  else Ok (yaml_data, changes).

Definition update_price (field : string) (api_price : string)
    (mk : value → string → change) (st : pydict * list change)
  : result (pydict * list change) :=
  let '(yaml_data, changes) := st in
  pricing ← py_getitem (VDict yaml_data) "pricing";
  old_price ← py_getitem pricing field;
  if negb (py_eq old_price (SStr api_price)) then
    pricing ← py_setitem pricing field (VStr api_price);
    Ok (oset "pricing" pricing yaml_data, changes ++ [mk old_price api_price])
  else Ok (yaml_data, changes).

Definition update_labels (api_model : api_model) (st : pydict * list change)
  : result (pydict * list change) :=
  let '(yaml_data, changes) := st in
  let api_title := api_title api_model in
  label ← py_getitem (VDict yaml_data) "label";
  zh_Hans ← py_getitem label "zh_Hans";
  differs ←
    (if negb (py_eq zh_Hans (SStr api_title)) then Ok true
     else en_US ← py_getitem label "en_US";
          Ok (negb (py_eq en_US (SStr api_title))));
  if differs : bool then
    en_US ← py_getitem label "en_US";
    label ← py_setitem label "zh_Hans" (VStr api_title);
    label ← py_setitem label "en_US" (VStr api_title);
    Ok (oset "label" label yaml_data,
        changes ++ [ChLabels zh_Hans en_US api_title])
  else Ok (yaml_data, changes).

Definition update_features (api_model : api_model) (st : pydict * list change)
  : result (pydict * list change) :=
  let '(yaml_data, changes) := st in
  let api_features := determine_model_features api_model in
  let yaml_features := default (VList []) (oget "features" yaml_data) in
  members ← py_set yaml_features;
  if negb (set_eqb members (KStr <$> api_features)) then
    Ok (oset "features" (VList (VStr <$> api_features)) yaml_data,
        changes ++ [ChFeatures yaml_features api_features])
  else Ok (yaml_data, changes).

Definition update_yaml_data (api_model : api_model) (yaml_data : pydict)
  : result (pydict * list change) :=
  let api_input_price :=
    convert_price (default 0 (m_input_token_price_per_m api_model)) in
  let api_output_price :=
    convert_price (default 0 (m_output_token_price_per_m api_model)) in
  st ← update_context_size api_model (yaml_data, []);
  st ← update_price "input" api_input_price ChInputPrice st;
  st ← update_price "output" api_output_price ChOutputPrice st;
  st ← update_labels api_model st;
  update_features api_model st.

(** *** The synchronised fields, as the specification words them *)

Definition context_size_matches (api_model : api_model) (yaml_data : pydict) : Prop :=
  ∃ v, py_get (default (VDict []) (oget "model_properties" yaml_data))
              "context_size" = Ok v ∧
       py_eq v (from_option SInt SNone (m_context_size api_model)) = true.

Definition price_matches (field price : string) (yaml_data : pydict) : Prop :=
  ∃ pricing, oget "pricing" yaml_data = Some (VDict pricing) ∧
             oget field pricing = Some (VStr price).

Definition labels_match (api_model : api_model) (yaml_data : pydict) : Prop :=
  ∃ label, oget "label" yaml_data = Some (VDict label) ∧
           oget "zh_Hans" label = Some (VStr (api_title api_model)) ∧
           oget "en_US" label = Some (VStr (api_title api_model)).

Definition features_match (api_model : api_model) (yaml_data : pydict) : Prop :=
  ∃ members, py_set (default (VList []) (oget "features" yaml_data)) = Ok members ∧
    ∀ k, k ∈ members ↔ k ∈ KStr <$> determine_model_features api_model.

(** Every field governed by the synchronisation has the value derived
    from the catalog record. *)
Definition fields_match (api_model : api_model) (yaml_data : pydict) : Prop :=
  context_size_matches api_model yaml_data ∧
  price_matches "input"
    (convert_price (default 0 (m_input_token_price_per_m api_model))) yaml_data ∧
  price_matches "output"
    (convert_price (default 0 (m_output_token_price_per_m api_model))) yaml_data ∧
  labels_match api_model yaml_data ∧
  features_match api_model yaml_data.

(** A step leaves the state alone or reports one change. *)
Definition unchanged_or_reported (st st' : pydict * list change) : Prop :=
  st' = st ∨ (∃ c, st'.2 = st.2 ++ [c]) ∧ st'.1 ≠ [].

(** Line 248: the file name of a new definition. *)
Definition new_filename (model_id : string) : string :=
  Str.join "-" (tail (Str.split "/" model_id)) +:+ ".yaml".

(** Lines 193-256: one catalog record. *)
Definition process_model (existing_files : list (hkey * string))
    (item : string * api_model) : M unit :=
  let '(model_id, api_model) := item in
  match oget (KStr model_id) existing_files with
  | Some filename =>
      yaml_data ← load_yaml_file filename;
      '(yaml_data, changes) ← lift (update_yaml_data api_model yaml_data);
      match changes with
      | _ :: _ =>
          save_yaml_file filename yaml_data;;
          print (MsgUpdated filename);;
          for_each changes (λ change, print (MsgChange change))
      | [] => print (MsgNoChanges filename)
      end
  | None =>
      let new_filename := new_filename model_id in
      new_yaml_data ← lift (create_yaml_template model_id api_model);
      save_yaml_file new_filename new_yaml_data;;
      print (MsgCreated new_filename)
  end.

(** [model_id not in api_models], for a key of [existing_files]. *)
Definition in_catalog (api_models : list (string * api_model)) (key : hkey) : bool :=
  match key with
  | KStr model_id => bool_decide (is_Some (oget model_id api_models))
  | _ => false
  end.

(** Lines 259-263: one entry of the deletion loop. *)
Definition delete_stale (api_models : list (string * api_model))
    (item : hkey * string) : M unit :=
  let '(model_id, filename) := item in
  if negb (in_catalog api_models model_id) then
    os_remove filename;;
    print (MsgDeleted filename)
  else mret ().

(** Line 171: the catalog keyed by identifier. *)
Definition index_by_id (data : list api_model) : list (string * api_model) :=
  foldl (λ api_models model, oset (m_id model) model api_models) [] data.

(** [sync_yaml_files], given the catalog that [get_api_data] fetched. *)
Definition sync_yaml_files (api_data : list api_model) : M unit :=
  let api_models := index_by_id api_data in
  create_position_yaml api_data;;
  filenames ← listdir;
  existing_files ← for_fold filenames scan_file [];
  for_each api_models (process_model existing_files);;
  for_each existing_files (delete_stale api_models).

(** ** Vocabulary of the statements *)

(** The effect of a sequence of events on the directory. *)
Definition replay (events : list event) (fs : gmap string file) : gmap string file :=
  foldl (λ fs e, match e with
                 | WriteFile filename content => <[filename := content]> fs
                 | RemoveFile filename => delete filename fs
                 | Print _ => fs
                 end) fs events.

(** The world after [events] happened in [w]. *)
Definition extend (w : world) (events : list event) : world :=
  World (replay events (files w)) (trace w ++ events).

Definition is_print (e : event) : Prop :=
  match e with Print _ => True | _ => False end.

(** The events of the directory scan: what it prints. *)
Definition scan_print (e : event) : Prop :=
  match e with
  | Print (MsgLoading _) | Print (MsgWarnNotDict _) | Print (MsgErrorLoading _) => True
  | _ => False
  end.

(** The event writes or removes [filename]. *)
Definition touches (filename : string) (e : event) : Prop :=
  match e with
  | WriteFile f _ | RemoveFile f => f = filename
  | Print _ => False
  end.

(** The scan looks at this file name (line 179). *)
Definition scannable (filename : string) : bool :=
  negb (negb (Str.endswith ".yaml" filename) ||
        bool_decide (filename ∈ ["check_yaml_consistency.py"; "fix_yaml_files.py"])).

(** What the scan registers for a file with this content (lines 184-190):
    the key of its truthy [model] value, nothing, or an exception for a
    value that cannot be a key. *)
Definition file_key (content : file) : result (option hkey) :=
  match content with
  | FYaml (VDict ((_ :: _) as yaml_data)) =>
      let model_id := default VNone (oget "model" yaml_data) in
      if truthy model_id then key ← py_hash model_id; Ok (Some key) else Ok None
  | _ => Ok None
  end.

Definition registration (fs : gmap string file) (filename : string)
  : result (option hkey) :=
  if scannable filename
  then match fs !! filename with
       | Some content => file_key content
       | None => Ok None
       end
  else Ok None.

(** The definition files among [filenames], with the key of their
    [model] value. *)
Definition definitions_among (fs : gmap string file) (filenames : list string)
  : list (hkey * string) :=
  omap (λ filename,
          match registration fs filename with
          | Ok (Some key) => Some (key, filename)
          | _ => None
          end) filenames.

(** The definition files of a directory, in the order of [os.listdir]. *)
Definition definitions (fs : gmap string file) : list (hkey * string) :=
  definitions_among fs (map_to_list fs).*1.

(** The directory that the scan sees: the index has been regenerated. *)
Definition scanned_files (api_data : list api_model) (fs : gmap string file)
  : gmap string file :=
  <[position_name := FText (position_content api_data)]> fs.

(** The identifiers of the catalog that no definition file carries. *)
Definition new_ids (fs : gmap string file) (api_data : list api_model) : list string :=
  filter (λ model_id, KStr model_id ∉ (definitions fs).*1) (index_by_id api_data).*1.

(** No two definition files carry the same [model] value. *)
Definition distinct_models (fs : gmap string file) : Prop :=
  NoDup (definitions fs).*1.

(** The file names derived for the new identifiers are pairwise distinct
    and none is the name of a definition file. *)
Definition fresh_names (fs : gmap string file) (api_data : list api_model) : Prop :=
  NoDup (new_filename <$> new_ids fs api_data) ∧
  Forall (λ filename, filename ∉ (definitions fs).*2)
         (new_filename <$> new_ids fs api_data).

(** The events of a run that change a definition file or report a change. *)
Definition reports_change (e : event) : Prop :=
  match e with
  | Print (MsgUpdated _) | Print (MsgChange _)
  | Print (MsgCreated _) | Print (MsgDeleted _) => True
  | RemoveFile _ => True
  | WriteFile filename (FText _) => filename ≠ position_name
  | WriteFile _ _ => True
  | _ => False
  end.

(** What [load_yaml_file] returns and prints for the content of a file. *)
Definition loaded (content : option file) : pydict :=
  match content with
  | Some (FYaml (VDict data)) => data
  | _ => []
  end.

Definition load_prints (filename : string) (content : option file) : list event :=
  match content with
  | Some (FYaml (VDict _)) => []
  | Some (FYaml _) | Some (FText _) => [Print (MsgWarnNotDict filename)]
  | Some FBad | None => [Print (MsgErrorLoading filename)]
  end.

(** The result of the scan loop, without its printing. *)
Definition register (key : option hkey) (filename : string)
    (existing_files : list (hkey * string)) : list (hkey * string) :=
  match key with
  | Some key => oset key filename existing_files
  | None => existing_files
  end.

Fixpoint scan_result (fs : gmap string file) (filenames : list string)
    (existing_files : list (hkey * string)) : result (list (hkey * string)) :=
  match filenames with
  | [] => Ok existing_files
  | filename :: filenames' =>
      key ← registration fs filename;
      scan_result fs filenames' (register key filename existing_files)
  end.

(** The result and the events of one iteration of the two loops of
    [sync_yaml_files], from the directory it runs in. *)
Definition process_step (existing_files : list (hkey * string))
    (item : string * api_model) (fs : gmap string file) : result unit * list event :=
  let '(model_id, api_model) := item in
  match oget (KStr model_id) existing_files with
  | Some filename =>
      let prints := load_prints filename (fs !! filename) in
      match update_yaml_data api_model (loaded (fs !! filename)) with
      | Raise e => (Raise e, prints)
      | Ok (yaml_data, []) => (Ok (), prints ++ [Print (MsgNoChanges filename)])
      | Ok (yaml_data, changes) =>
          (Ok (), prints ++ WriteFile filename (FYaml (VDict yaml_data))
                         :: Print (MsgUpdated filename)
                         :: ((λ c, Print (MsgChange c)) <$> changes))
      end
  | None =>
      match create_yaml_template model_id api_model with
      | Raise e => (Raise e, [])
      | Ok yaml_data =>
          (Ok (), [WriteFile (new_filename model_id) (FYaml (VDict yaml_data));
                   Print (MsgCreated (new_filename model_id))])
      end
  end.

Definition delete_step (api_models : list (string * api_model))
    (item : hkey * string) (fs : gmap string file) : result unit * list event :=
  let '(model_id, filename) := item in
  if in_catalog api_models model_id then (Ok (), [])
  else match fs !! filename with
       | Some _ => (Ok (), [RemoveFile filename; Print (MsgDeleted filename)])
       | None => (Raise (FileNotFoundError filename), [])
       end.

(** The result and the events of a loop of such iterations. *)
Fixpoint run_steps {A} (step : A → gmap string file → result unit * list event)
    (l : list A) (fs : gmap string file) : result unit * list event :=
  match l with
  | [] => (Ok (), [])
  | x :: l' =>
      match step x fs with
      | (Ok _, events) =>
          let '(r, events') := run_steps step l' (replay events fs) in
          (r, events ++ events')
      | (Raise e, events) => (Raise e, events)
      end
  end.

(** The file that holds, after a run, the definition of a catalog
    identifier: the file registered for it, or a new one. *)
Definition target (existing_files : list (hkey * string)) (model_id : string) : string :=
  default (new_filename model_id) (oget (KStr model_id) existing_files).

(** [filename] holds a definition of [model_id] whose synchronised
    fields have the values derived from [api_model]. *)
Definition holds_definition (fs : gmap string file) (filename model_id : string)
    (api_model : api_model) : Prop :=
  ∃ yaml_data,
    fs !! filename = Some (FYaml (VDict yaml_data)) ∧
    oget "model" yaml_data = Some (VStr model_id) ∧
    fields_match api_model yaml_data.

(** The registered files whose identifier left the catalog. *)
Definition stale (api_models : list (string * api_model))
    (existing_files : list (hkey * string)) : list string :=
  (filter (λ item, in_catalog api_models item.1 = false) existing_files).*2.



(** What the run may do to a file that the scan does not register. *)
Definition spares (api_data : list api_model) (fs : gmap string file)
    (filename : string) (e : event) : Prop :=
  match e with
  | Print _ => True
  | RemoveFile f => f ≠ filename
  | WriteFile f content =>
      f = filename →
      (filename = position_name ∨
       filename ∈ new_filename <$> new_ids (scanned_files api_data fs) api_data)
  end.

(** The events that a run may produce. *)
Definition run_event (api_data : list api_model) (fs : gmap string file)
    (e : event) : Prop :=
  match e with
  | Print _ => True
  | RemoveFile f => f ∈ (definitions (scanned_files api_data fs)).*2
  | WriteFile f content =>
      f = position_name ∨
      f ∈ (definitions (scanned_files api_data fs)).*2 ∨
      f ∈ new_filename <$> new_ids (scanned_files api_data fs) api_data
  end.

(** The content of [filename] is not a mapping, or cannot be parsed. *)
Definition not_a_mapping (fs : gmap string file) (filename : string) : Prop :=
  match fs !! filename with
  | Some (FYaml (VDict _)) | None => False
  | Some _ => True
  end.

(** The definition file parses to a mapping without a truthy [model]. *)
Definition lacks_model (fs : gmap string file) (filename : string) : Prop :=
  ∃ yaml_data, fs !! filename = Some (FYaml (VDict yaml_data)) ∧
    truthy (default VNone (oget "model" yaml_data)) = false.

(** ** The claims as first stated, for the counterexamples *)

(** After the run the [model] values of the definition files are the
    catalog identifiers and their fields match the catalog. *)
Definition reconciled (api_data : list api_model) (fs : gmap string file) : Prop :=
  (∀ k, k ∈ (definitions fs).*1 ↔ ∃ m, k = KStr m ∧ m ∈ m_id <$> api_data) ∧
  (∀ k filename, (k, filename) ∈ definitions fs →
     ∃ m r d,
       k = KStr m ∧ oget m (index_by_id api_data) = Some r ∧
       fs !! filename = Some (FYaml (VDict d)) ∧
       oget "model" d = Some (VStr m) ∧
       fields_match r d).

(** The second run returns, leaves every file as it is, and its events
    report no change and write nothing but the index. *)
Definition second_run_idle (api_data : list api_model) (w2 : world) : Prop :=
  (sync_yaml_files api_data w2).1 = Ok () ∧
  files (sync_yaml_files api_data w2).2 = files w2 ∧
  files w2 !! position_name = Some (FText (position_content api_data)) ∧
  ∃ events,
    (sync_yaml_files api_data w2).2 = extend w2 events ∧
    Forall (λ e, ¬ reports_change e) events ∧
    WriteFile position_name (FText (position_content api_data)) ∈ events.

(** ** Sample catalog records and directories *)

Definition sample_record (model_id : string) (input_price : Z) : api_model :=
  ApiModel model_id None (Some 8192) (Some input_price) (Some 8900)
           ["function-calling"] None.

Definition sample_definition (model_id : string) (input_price : Z) : file :=
  match create_yaml_template model_id (sample_record model_id input_price) with
  | Ok yaml_data => FYaml (VDict yaml_data)
  | Raise _ => FBad
  end.

(** A directory with an outdated definition and one whose identifier
    left the catalog. *)
Definition sample_directory : gmap string file :=
  <["foo.yaml" := sample_definition "acme/foo" 100]>
    (<["old.yaml" := sample_definition "acme/old" 100]> ∅).

Definition sample_catalog : list api_model :=
  [sample_record "acme/foo" 200; sample_record "zeta/baz" 300].

(** A directory whose one definition is of an identifier that moved to
    another provider, and the catalog after the move. *)
Definition moved_directory : gmap string file :=
  <["foo.yaml" := sample_definition "acme/foo" 100]> ∅.

Definition moved_catalog : list api_model := [sample_record "zeta/foo" 100].

(** A directory with a draft that has no [model], and one with a file
    that cannot be parsed, both under the name derived for [acme/foo]. *)
Definition draft_directory : gmap string file :=
  <["foo.yaml" := FYaml (VDict [("label", VStr "draft")])]> ∅.

Definition broken_directory : gmap string file :=
  <["foo.yaml" := FBad]> ∅.

Definition foo_catalog : list api_model := [sample_record "acme/foo" 100].

(** Two definition files of one identifier that left the catalog. *)
Definition duplicate_directory : gmap string file :=
  <["a.yaml" := sample_definition "acme/old" 100]>
    (<["b.yaml" := sample_definition "acme/old" 100]> ∅).

(** Two new identifiers with the same derived file name; a catalog with
    the empty identifier; an identifier whose derived file name is that
    of the index. *)
Definition clashing_catalog : list api_model :=
  [sample_record "acme/foo" 100; sample_record "zeta/foo" 100].

Definition anonymous_catalog : list api_model := [sample_record "" 100].

Definition index_named_catalog : list api_model :=
  [sample_record "acme/_position" 100].


(** ** The credential validation of the provider *)

Module Provider.

(** The exceptions of the [Exception] hierarchy, as the handler
    distinguishes them. *)
Inductive exception :=
  | CredentialsValidateFailedError (description : string)
  | OtherException (description : string).

Inductive outcome (A : Type) :=
  | Returns (a : A)
  | Raises (e : exception).
Arguments Returns {A} a.
Arguments Raises {A} e.

Inductive ModelType := LLM.

Section provider.
(** The host framework: model instances, their credential check, and
    the provider name of the schema. *)
Context {model_instance credentials : Type}.
Context (get_model_instance : ModelType → outcome model_instance).
Context (validate_credentials : model_instance → string → credentials → outcome unit).
Context (provider : string).

(** The body of the [try]. *)
Definition probe (creds : credentials) : outcome unit :=
  match get_model_instance LLM with
  | Returns model_instance =>
      validate_credentials model_instance "meta-llama/llama-3-8b-instruct" creds
  | Raises e => Raises e
  end.

(** [validate_provider_credentials]: the outcome and what was logged. *)
Definition validate_provider_credentials (creds : credentials)
  : outcome unit * list string :=
  match probe creds with
  | Returns _ => (Returns (), [])
  | Raises (CredentialsValidateFailedError d) =>
      (Raises (CredentialsValidateFailedError d), [])
  | Raises ex =>
      (Raises ex, [provider +:+ " credentials validate failed"])
  end.

End provider.
End Provider.


(** * Strings *)

Section string_facts.
Implicit Types (s t : string) (c : ascii) (p : ascii → bool).

Lemma app_cons c s t : String c s +:+ t = String c (s +:+ t).
Proof. reflexivity. Qed.

Lemma app_empty_l t : "" +:+ t = t.
Proof. reflexivity. Qed.

Lemma app_empty_r s : s +:+ "" = s.
Proof. induction s as [|c s IH]; [done|]. by rewrite app_cons, IH. Qed.

Lemma app_assoc_str s t u : (s +:+ t) +:+ u = s +:+ t +:+ u.
Proof. induction s as [|c s IH]; [done|]. by rewrite !app_cons, IH. Qed.

Lemma app_eq_empty s t : s +:+ t = "" → s = "" ∧ t = "".
Proof. destruct s; [done|]. by rewrite app_cons. Qed.

Lemma length_app_str s t :
  String.length (s +:+ t) = (String.length s + String.length t)%nat.
Proof. induction s as [|c s IH]; [done|]. rewrite app_cons. simpl. by rewrite IH. Qed.

(** *** [rstrip] *)

Lemma rstrip_by_cons p c s :
  Str.rstrip_by p (String c s) =
    match Str.rstrip_by p s with
    | EmptyString => if p c then EmptyString else String c EmptyString
    | t => String c t
    end.
Proof. reflexivity. Qed.

Lemma rstrip_by_cons_keep p c s :
  Str.rstrip_by p s ≠ "" → Str.rstrip_by p (String c s) = String c (Str.rstrip_by p s).
Proof. rewrite rstrip_by_cons. by destruct (Str.rstrip_by p s). Qed.

Lemma rstrip_by_cons_false p c s :
  p c = false → Str.rstrip_by p (String c s) = String c (Str.rstrip_by p s).
Proof. intros Hc. rewrite rstrip_by_cons, Hc. by destruct (Str.rstrip_by p s). Qed.

Lemma rstrip_by_app_keep p s t :
  Str.rstrip_by p t ≠ "" → Str.rstrip_by p (s +:+ t) = s +:+ Str.rstrip_by p t.
Proof.
  intros Ht. induction s as [|c s IH]; [done|].
  rewrite !app_cons, rstrip_by_cons_keep; rewrite IH; [done|].
  intros [_ ?]%app_eq_empty. done.
Qed.

Lemma rstrip_by_app_drop p s t :
  Str.rstrip_by p t = "" → Str.rstrip_by p (s +:+ t) = Str.rstrip_by p s.
Proof.
  intros Ht. induction s as [|c s IH]; [done|].
  by rewrite app_cons, !rstrip_by_cons, IH.
Qed.

Lemma all_chars_app q s t :
  Str.all_chars q (s +:+ t) = Str.all_chars q s && Str.all_chars q t.
Proof.
  induction s as [|c s IH]; [done|].
  rewrite app_cons. simpl. rewrite IH. by rewrite andb_assoc.
Qed.

Lemma rstrip_by_none p s :
  Str.all_chars (λ c, negb (p c)) s = true → Str.rstrip_by p s = s.
Proof.
  induction s as [|c s IH]; [done|]. cbn [Str.all_chars].
  intros [Hc Hs]%andb_true_iff. apply negb_true_iff in Hc.
  by rewrite rstrip_by_cons_false, IH.
Qed.

Lemma all_chars_rstrip_by q p s :
  Str.all_chars q s = true → Str.all_chars q (Str.rstrip_by p s) = true.
Proof.
  induction s as [|c s IH]; [done|]. cbn [Str.all_chars].
  intros [Hc Hs]%andb_true_iff. specialize (IH Hs).
  rewrite rstrip_by_cons. destruct (Str.rstrip_by p s) eqn:E.
  - destruct (p c); [done|]. cbn [Str.all_chars]. by rewrite Hc.
  - cbn [Str.all_chars] in *. by rewrite Hc, IH.
Qed.

Lemma length_repeat_char c k : String.length (Str.repeat_char c k) = k.
Proof. induction k; simpl; congruence. Qed.

(** What [rstrip] of a single character removes is a run of it. *)
Lemma rstrip_by_decompose p c0 s :
  (∀ c, p c = true → c = c0) →
  ∃ k, s = Str.rstrip_by p s +:+ Str.repeat_char c0 k.
Proof.
  intros Hp. induction s as [|c s [k IH]]; [by exists O|].
  rewrite rstrip_by_cons. destruct (Str.rstrip_by p s) eqn:E.
  - destruct (p c) eqn:Hc.
    + exists (S k). rewrite app_empty_l in *. simpl. rewrite <- IH.
      by rewrite (Hp c Hc).
    + exists k. rewrite app_empty_l in IH. by rewrite app_cons, app_empty_l, <- IH.
  - exists k. by rewrite app_cons, <- IH.
Qed.

Lemma rstrip_by_same_length p c0 s t :
  (∀ c, p c = true → c = c0) →
  String.length s = String.length t →
  Str.rstrip_by p s = Str.rstrip_by p t → s = t.
Proof.
  intros Hp Hlen Heq.
  destruct (rstrip_by_decompose p c0 s Hp) as [k Hs].
  destruct (rstrip_by_decompose p c0 t Hp) as [j Ht].
  rewrite Hs, Ht, !length_app_str, !length_repeat_char, Heq in Hlen.
  rewrite Hs, Ht, Heq. f_equal. f_equal. lia.
Qed.

Lemma in_chars_single c0 c : Str.in_chars (String c0 "") c = true → c = c0.
Proof.
  unfold Str.in_chars. simpl. rewrite orb_false_r. apply Ascii.eqb_eq.
Qed.

(** *** Digits *)

Lemma is_digit_char_of_digit d : 0 ≤ d < 10 → Str.is_digit (Str.char_of_digit d) = true.
Proof.
  intros Hd. unfold Str.is_digit, Str.char_of_digit.
  rewrite nat_ascii_embedding by lia.
  apply andb_true_iff; split; apply Nat.leb_le; lia.
Qed.

Lemma digit_of_char_of_digit d : 0 ≤ d < 10 → Str.digit_of (Str.char_of_digit d) = d.
Proof.
  intros Hd. unfold Str.digit_of, Str.char_of_digit.
  rewrite nat_ascii_embedding by lia. lia.
Qed.

Lemma int_of_digits_from_snoc acc s c :
  Str.int_of_digits_from acc (s +:+ String c "") =
    10 * Str.int_of_digits_from acc s + Str.digit_of c.
Proof. revert acc. induction s as [|a s IH]; intros acc; [done|]. rewrite app_cons. simpl. apply IH. Qed.

Lemma length_zero_padded w r : String.length (Str.zero_padded w r) = w.
Proof.
  revert r. induction w as [|w IH]; intros r; [done|]. simpl.
  rewrite length_app_str, IH. simpl. lia.
Qed.

Lemma all_digits_zero_padded w r :
  Str.all_chars Str.is_digit (Str.zero_padded w r) = true.
Proof.
  revert r. induction w as [|w IH]; intros r; [done|]. simpl.
  rewrite all_chars_app, IH. simpl.
  rewrite is_digit_char_of_digit; [done|]. apply Z.mod_pos_bound. lia.
Qed.

Lemma int_of_zero_padded w r :
  Str.int_of_digits (Str.zero_padded w r) = r mod 10 ^ Z.of_nat w.
Proof.
  unfold Str.int_of_digits. revert r.
  induction w as [|w IH]; intros r.
  - simpl. by rewrite Z.mod_1_r.
  - cbn [Str.zero_padded]. rewrite int_of_digits_from_snoc, IH.
    rewrite digit_of_char_of_digit by (apply Z.mod_pos_bound; lia).
    rewrite Nat2Z.inj_succ, Z.pow_succ_r by lia.
    rewrite (Z.rem_mul_r r 10 (10 ^ Z.of_nat w)) by lia. lia.
Qed.

Lemma zero_padded_inj w a b :
  0 ≤ a < 10 ^ Z.of_nat w → 0 ≤ b < 10 ^ Z.of_nat w →
  Str.zero_padded w a = Str.zero_padded w b → a = b.
Proof.
  intros Ha Hb Heq. apply (f_equal Str.int_of_digits) in Heq.
  rewrite !int_of_zero_padded in Heq.
  by rewrite !Z.mod_small in Heq.
Qed.

(** *** [str] of a natural number *)

Lemma all_digits_string_of_uint d :
  Str.all_chars Str.is_digit (NilEmpty.string_of_uint d) = true.
Proof. induction d; simpl; auto. Qed.

Lemma all_digits_of_N n : Str.all_chars Str.is_digit (Str.of_N n) = true.
Proof.
  unfold Str.of_N, NilZero.string_of_uint.
  destruct (N.to_uint n); try apply all_digits_string_of_uint; done.
Qed.

Lemma to_uint_nonnil n : N.to_uint n ≠ Decimal.Nil.
Proof. destruct n; [done|]. apply Unsigned.to_uint_nonnil. Qed.

Lemma of_N_inj n m : Str.of_N n = Str.of_N m → n = m.
Proof.
  unfold Str.of_N. intros Heq.
  apply DecimalN.Unsigned.to_uint_inj.
  apply (f_equal NilZero.uint_of_string) in Heq.
  rewrite !NilZero.usu in Heq by apply to_uint_nonnil. congruence.
Qed.

(** Two numerals, each followed by text that does not start with a digit. *)
Lemma digits_then_rest_inj s1 s2 t1 t2 :
  Str.all_chars Str.is_digit s1 = true → Str.all_chars Str.is_digit s2 = true →
  Str.no_leading_digit t1 → Str.no_leading_digit t2 →
  s1 +:+ t1 = s2 +:+ t2 → s1 = s2 ∧ t1 = t2.
Proof.
  revert s2. induction s1 as [|c1 s1 IH]; intros [|c2 s2] H1 H2 Ht1 Ht2 Heq.
  - done.
  - rewrite app_empty_l, app_cons in Heq. subst t1. simpl in *.
    apply andb_true_iff in H2 as [H2 _]. congruence.
  - rewrite app_empty_l, app_cons in Heq. subst t2. simpl in *.
    apply andb_true_iff in H1 as [H1 _]. congruence.
  - rewrite !app_cons in Heq. simplify_eq. simpl in *.
    apply andb_true_iff in H1 as [_ H1]. apply andb_true_iff in H2 as [_ H2].
    destruct (IH s2 H1 H2 Ht1 Ht2) as [-> ->]; done.
Qed.

End string_facts.

(** * Price conversion *)

Lemma round_half_even_exact n b : 0 < b → round_half_even (n * b) b = n.
Proof.
  intros Hb. unfold round_half_even.
  rewrite Z.mod_mul, Z.div_mul by lia.
  destruct (Z.ltb_spec (2 * 0) b); [done|lia].
Qed.

Lemma format_6f_nonneg n :
  0 ≤ n →
  format_6f (Qmake n 1000000) =
    Str.of_N (Z.to_N (n / 1000000)) +:+ "." +:+ Str.zero_padded 6 (n mod 1000000).
Proof.
  intros Hn. unfold format_6f. cbn [Qnum Qden].
  rewrite round_half_even_exact by done.
  rewrite Z.abs_eq by done.
  destruct (Z.ltb_spec n 0); [lia|]. done.
Qed.

Lemma rstrip_zero_digits r :
  Str.all_chars Str.is_digit (Str.rstrip "0" (Str.zero_padded 6 r)) = true.
Proof. apply all_chars_rstrip_by, all_digits_zero_padded. Qed.

Lemma digits_no_point s :
  Str.all_chars Str.is_digit s = true →
  Str.all_chars (λ c, negb (Str.in_chars "." c)) s = true.
Proof.
  induction s as [|c s IH]; [done|]. cbn [Str.all_chars].
  intros [Hc Hs]%andb_true_iff. rewrite (IH Hs), andb_true_r.
  apply negb_true_iff. destruct (Str.in_chars "." c) eqn:E; [|done].
  apply in_chars_single in E. by subst c.
Qed.

Lemma convert_price_nonneg n :
  0 ≤ n →
  convert_price n =
    Str.of_N (Z.to_N (n / 1000000)) +:+ price_fraction (n mod 1000000).
Proof.
  intros Hn. unfold convert_price. rewrite format_6f_nonneg by done.
  unfold price_fraction, Str.rstrip.
  set (I := Str.of_N _). set (P := Str.zero_padded 6 _).
  assert (HP : Str.all_chars Str.is_digit (Str.rstrip_by (Str.in_chars "0") P) = true)
    by apply rstrip_zero_digits.
  change ("." +:+ P) with (String "." P).
  rewrite (rstrip_by_app_keep _ I (String "." P)); last first.
  { by rewrite rstrip_by_cons_false. }
  rewrite rstrip_by_cons_false by done.
  destruct (Str.rstrip_by (Str.in_chars "0") P) as [|d T] eqn:E.
  - rewrite rstrip_by_app_drop by done.
    rewrite app_empty_r. apply rstrip_by_none, digits_no_point, all_digits_of_N.
  - assert (Hkeep : Str.rstrip_by (Str.in_chars ".") (String "." (String d T))
                     = String "." (String d T)).
    { rewrite rstrip_by_cons_keep;
        rewrite (rstrip_by_none _ (String d T)) by (by apply digits_no_point); done. }
    rewrite rstrip_by_app_keep; rewrite Hkeep; done.
Qed.

Lemma price_fraction_no_leading_digit r : Str.no_leading_digit (price_fraction r).
Proof. unfold price_fraction. by destruct (Str.rstrip "0" _). Qed.

Lemma price_fraction_inj a b :
  0 ≤ a < 1000000 → 0 ≤ b < 1000000 →
  price_fraction a = price_fraction b → a = b.
Proof.
  intros Ha Hb Heq. apply (zero_padded_inj 6); [done..|].
  apply (rstrip_by_same_length (Str.in_chars "0") "0").
  - apply in_chars_single.
  - by rewrite !length_zero_padded.
  - unfold price_fraction, Str.rstrip in Heq.
    destruct (Str.rstrip_by _ (Str.zero_padded 6 a)),
             (Str.rstrip_by _ (Str.zero_padded 6 b)); try done.
    change ("." +:+ ?x) with (String "." x) in Heq. congruence.
Qed.

Lemma convert_price_inj a b :
  0 ≤ a → 0 ≤ b → convert_price a = convert_price b → a = b.
Proof.
  intros Ha Hb. rewrite !convert_price_nonneg by done. intros Heq.
  destruct (digits_then_rest_inj _ _ _ _
              (all_digits_of_N _) (all_digits_of_N _)
              (price_fraction_no_leading_digit _)
              (price_fraction_no_leading_digit _) Heq) as [Hq Hr].
  apply of_N_inj, Z2N.inj in Hq; [|by apply Z.div_pos..].
  apply price_fraction_inj in Hr; [|by apply Z.mod_pos_bound..].
  rewrite (Z.div_mod a 1000000), (Z.div_mod b 1000000) by done. congruence.
Qed.

(** C3 (evaluation at the failing input).  The docstring of
    [convert_price] announces the price in units of 0.0001, 89 for the
    raw price 8900; the function stops after the division by one
    million and returns 0.0089. *)
Theorem convert_price_not_in_units :
  convert_price 8900 = "0.0089" ∧
  stored_price_spec 8900 = "89" ∧
  convert_price 8900 ≠ stored_price_spec 8900.
Proof. repeat split; [reflexivity..|]. by vm_compute. Qed.

(** C4.  The three sample conversions; the price of a non-negative
    input is printed with its integer part, a point and six fractional
    digits, of which the trailing zeros and then a trailing point are
    removed, so that 1.000000 becomes 1; and the conversion is injective
    on the non-negative integers, hence on the multiples of 100 up to
    ten million. *)
Theorem convert_price_samples_and_injective :
  convert_price 8900 = "0.0089" ∧
  convert_price 1000000 = "1" ∧
  convert_price 0 = "0" ∧
  (∀ n, 0 ≤ n →
     format_6f (Qmake n 1000000) =
       Str.of_N (Z.to_N (n / 1000000)) +:+ "." +:+ Str.zero_padded 6 (n mod 1000000) ∧
     String.length (Str.zero_padded 6 (n mod 1000000)) = 6%nat ∧
     convert_price n = Str.rstrip "." (Str.rstrip "0" (format_6f (Qmake n 1000000)))) ∧
  format_6f (Qmake 1000000 1000000) = "1.000000" ∧
  (∀ a b, 0 ≤ a → 0 ≤ b → convert_price a = convert_price b → a = b).
Proof.
  split_and!; try reflexivity.
  - intros n Hn. split_and!; [by apply format_6f_nonneg|apply length_zero_padded|done].
  - apply convert_price_inj.
Qed.

Lemma convert_price_samples_and_injective_witness :
  0 ≤ 8900 ∧ 0 ≤ 100 ∧ (convert_price 8900 = convert_price 100 → 8900 = 100).
Proof.
  split; [lia|]. split; [lia|].
  destruct convert_price_samples_and_injective as (_ & _ & _ & _ & _ & Hinj).
  apply (Hinj 8900 100); lia.
Defined.


(** * Feature inference *)

Lemma span_digits_spec s :
  s = (span_digits s).1 +:+ (span_digits s).2 ∧
  Str.all_chars Str.is_digit (span_digits s).1 = true ∧
  Str.no_leading_digit (span_digits s).2.
Proof.
  induction s as [|c s (IH1 & IH2 & IH3)]; [done|].
  cbn [span_digits]. destruct (Str.is_digit c) eqn:Hc.
  - destruct (span_digits s) as [ds rest]. cbn [fst snd] in *.
    rewrite app_cons, <- IH1. cbn [Str.all_chars]. by rewrite Hc, IH2.
  - done.
Qed.

Lemma span_digits_app ds rest :
  Str.all_chars Str.is_digit ds = true → Str.no_leading_digit rest →
  span_digits (ds +:+ rest) = (ds, rest).
Proof.
  intros Hds Hrest. induction ds as [|d ds IH].
  - rewrite app_empty_l. destruct rest as [|c rest]; [done|].
    cbn in *. by rewrite Hrest.
  - cbn [Str.all_chars] in Hds. apply andb_true_iff in Hds as [Hd Hds].
    rewrite app_cons. cbn [span_digits]. by rewrite Hd, IH.
Qed.

Lemma startswith_b rest :
  Str.startswith "b" rest = true ↔ ∃ post, rest = String "b" post.
Proof.
  destruct rest as [|c rest]; cbn [Str.startswith].
  - split; [discriminate|]. intros [? [=]].
  - rewrite andb_true_r. split.
    + intros ->%Ascii.eqb_eq. by eexists.
    + intros [post [= -> _]]. apply Ascii.eqb_refl.
Qed.

Lemma match_at_start_span s ds :
  match_at_start s ds ↔
  (span_digits s).1 = ds ∧ ds ≠ "" ∧ Str.startswith "b" (span_digits s).2 = true.
Proof.
  split.
  - intros (post & -> & Hne & Hds).
    change ("b" +:+ post) with (String "b" post).
    rewrite (span_digits_app ds (String "b" post)) by done. done.
  - intros (<- & Hne & [post Hpost]%startswith_b).
    destruct (span_digits_spec s) as (Hs & Hds & _).
    exists post. by rewrite Hpost in Hs.
Qed.

Lemma re_search_size_cons c s :
  re_search_size (String c s) =
    if bool_decide ((span_digits (String c s)).1 ≠ "") &&
       Str.startswith "b" (span_digits (String c s)).2
    then Some (span_digits (String c s)).1
    else re_search_size s.
Proof. cbn [re_search_size]. by destruct (span_digits (String c s)). Qed.

Lemma re_search_size_start s ds :
  match_at_start s ds → re_search_size s = Some ds.
Proof.
  intros Hm. pose proof Hm as (<- & Hne & Hb)%match_at_start_span.
  destruct s as [|c s]; [done|].
  by rewrite re_search_size_cons, bool_decide_true, Hb.
Qed.

Lemma re_search_size_skip c s :
  (∀ ds, ¬ match_at_start (String c s) ds) →
  re_search_size (String c s) = re_search_size s.
Proof.
  intros Hno. rewrite re_search_size_cons.
  destruct (bool_decide _ && _) eqn:E; [|done].
  apply andb_true_iff in E as [Hne%bool_decide_eq_true Hb].
  destruct (Hno (span_digits (String c s)).1). by apply match_at_start_span.
Qed.

Lemma match_at_start_dec s : (∃ ds, match_at_start s ds) ∨ (∀ ds, ¬ match_at_start s ds).
Proof.
  destruct (bool_decide ((span_digits s).1 ≠ "") &&
            Str.startswith "b" (span_digits s).2) eqn:E.
  - apply andb_true_iff in E as [Hne%bool_decide_eq_true Hb].
    left. exists (span_digits s).1. by apply match_at_start_span.
  - right. intros ds (<- & Hne & Hb)%match_at_start_span.
    by rewrite bool_decide_true, Hb in E.
Qed.

(** The model of [re.search] finds the size token that starts first. *)
Lemma re_search_size_leftmost s ds :
  re_search_size s = Some ds ↔ leftmost_size_token s ds.
Proof.
  split.
  - revert ds. induction s as [|c s IH]; intros ds; [done|].
    destruct (match_at_start_dec (String c s)) as [[ds0 Hm]|Hno].
    + rewrite (re_search_size_start _ _ Hm). intros [= <-].
      destruct Hm as (post & Hs & Hne & Hds).
      exists "", post. split_and!; [done..|]. intros; simpl; lia.
    + rewrite re_search_size_skip by done.
      intros (pre & post & -> & Hne & Hds & Hmin)%IH.
      exists (String c pre), post. split_and!; [done..|].
      intros pre' ds' post' Heq Hne' Hds'. destruct pre' as [|c' pre'].
      * destruct (Hno ds'). by exists post'.
      * rewrite app_cons in Heq. injection Heq as -> Heq.
        specialize (Hmin _ _ _ Heq Hne' Hds'). simpl. lia.
  - intros (pre & post & Hs & Hne & Hds & Hmin). revert s Hs Hmin.
    induction pre as [|c pre IH]; intros s Hs Hmin.
    + apply re_search_size_start. by exists post.
    + rewrite Hs, app_cons. rewrite re_search_size_skip.
      * apply IH; [done|]. intros pre' ds' post' Heq Hne' Hds'.
        assert (String.length (String c pre) ≤ String.length (String c pre'))%nat.
        { apply (Hmin _ ds' post'); [|done..]. by rewrite Hs, app_cons, Heq. }
        simpl in *. lia.
      * intros ds' (post' & Heq & Hne' & Hds').
        assert (String.length (String c pre) ≤ String.length "")%nat.
        { apply (Hmin _ ds' post'); [|done..]. by rewrite Hs, app_cons. }
        simpl in *. lia.
Qed.

Lemma elem_of_list_of_set x l : x ∈ list_of_set l ↔ x ∈ l.
Proof. unfold list_of_set. by rewrite elem_of_elements, elem_of_list_to_set. Qed.

Lemma agent_thought_not_mapped l :
  feature_value AGENT_THOUGHT ∉ flat_map map_api_feature l.
Proof.
  intros (f & _ & Hf%list_elem_of_In)%list_elem_of_In%in_flat_map.
  unfold map_api_feature in Hf.
  repeat case_decide; set_solver.
Qed.

Lemma agent_thought_inferred api_model :
  feature_value AGENT_THOUGHT ∈ determine_model_features api_model ↔
  has_agent_thought api_model = true.
Proof.
  unfold determine_model_features. rewrite elem_of_list_of_set.
  pose proof (agent_thought_not_mapped (m_features api_model)).
  destruct (has_agent_thought api_model); [|done].
  rewrite elem_of_app. set_solver.
Qed.

Lemma keyword_test description :
  negb (bool_decide (description = "")) &&
    existsb (λ keyword, Str.contains keyword description) thinking_keywords = true ↔
  ∃ keyword, keyword ∈ thinking_keywords ∧ Str.contains keyword description = true.
Proof.
  rewrite andb_true_iff, existsb_exists. split.
  - intros [_ (k & Hk%list_elem_of_In & Hc)]. eauto.
  - intros (k & Hk & Hc). split; [|exists k; by rewrite <- list_elem_of_In].
    apply negb_true_iff, bool_decide_eq_false. intros ->.
    unfold thinking_keywords in Hk.
    rewrite !elem_of_cons in Hk. rewrite elem_of_nil in Hk.
    destruct Hk as [->|[->|[->|[]]]]; discriminate.
Qed.

Lemma has_agent_thought_true api_model :
  has_agent_thought api_model = true ↔
  mentions_thinking api_model ∨ description_has_keyword api_model ∨
  ∃ ds, re_search_size (Str.lower (m_id api_model)) = Some ds ∧
        70 < Str.int_of_digits ds.
Proof.
  unfold has_agent_thought, mentions_thinking, description_has_keyword.
  rewrite <- keyword_test.
  destruct (Str.contains "think" _);
    destruct (negb (bool_decide _) && existsb _ _); cbn [negb];
    try (split; [auto|done]).
  destruct (re_search_size _) as [ds|]; [|naive_solver].
  destruct (Z.ltb_spec 70 (Str.int_of_digits ds)).
  - split; [|done]. intros _. right; right. eauto.
  - split; [done|]. intros [?|[?|(ds' & [= <-] & ?)]]; try done. lia.
Qed.

(** C5 (as amended).  [agent-thought] is inferred exactly when the
    identifier contains "think" in any case, or the description contains
    one of the reasoning keywords, or the leftmost size token
    [<digits>b] of the lower-cased identifier, the one [re.search]
    returns, has a number above 70.  In particular it is inferred when
    that token is [72b], and it is not when that token is [8b] and no
    other trigger is present. *)
Theorem agent_thought_iff_leftmost_token api_model :
  (feature_value AGENT_THOUGHT ∈ determine_model_features api_model ↔
   mentions_thinking api_model ∨ description_has_keyword api_model ∨
   ∃ ds, leftmost_size_token (Str.lower (m_id api_model)) ds ∧
         70 < Str.int_of_digits ds) ∧
  (leftmost_size_token (Str.lower (m_id api_model)) "72" →
   feature_value AGENT_THOUGHT ∈ determine_model_features api_model) ∧
  (leftmost_size_token (Str.lower (m_id api_model)) "8" →
   ¬ mentions_thinking api_model → ¬ description_has_keyword api_model →
   feature_value AGENT_THOUGHT ∉ determine_model_features api_model).
Proof.
  assert (feature_value AGENT_THOUGHT ∈ determine_model_features api_model ↔
          mentions_thinking api_model ∨ description_has_keyword api_model ∨
          ∃ ds, leftmost_size_token (Str.lower (m_id api_model)) ds ∧
                70 < Str.int_of_digits ds) as Hiff.
  { rewrite agent_thought_inferred, has_agent_thought_true.
    by setoid_rewrite re_search_size_leftmost. }
  split_and!; [done| |].
  - intros H72. apply Hiff. right; right. by exists "72".
  - intros H8%re_search_size_leftmost Hthink Hkey
      [?|[?|(ds & Hds%re_search_size_leftmost & Hsize)]]%Hiff; [done..|].
    rewrite H8 in Hds. injection Hds as <-. by vm_compute in Hsize.
Qed.

Lemma agent_thought_iff_leftmost_token_witness :
  feature_value AGENT_THOUGHT ∈
    determine_model_features
      (ApiModel "Qwen/Qwen2.5-72B-Instruct" None None None None [] None) ∧
  feature_value AGENT_THOUGHT ∉
    determine_model_features
      (ApiModel "meta-llama/llama-3-8b-instruct" None None None None [] None).
Proof.
  split.
  - apply (agent_thought_iff_leftmost_token
             (ApiModel "Qwen/Qwen2.5-72B-Instruct" None None None None [] None)).
    apply re_search_size_leftmost. reflexivity.
  - apply (agent_thought_iff_leftmost_token
             (ApiModel "meta-llama/llama-3-8b-instruct" None None None None [] None)).
    + apply re_search_size_leftmost. reflexivity.
    + by vm_compute.
    + intros (keyword & Hk & Hc).
      repeat (apply elem_of_cons in Hk as [->|Hk]; [by vm_compute in Hc|]).
      by apply elem_of_nil in Hk.
Defined.

(** C5 (counterexample).  An identifier with the tokens [7b] and [72b],
    in this order, and no other trigger: a size token above 70 is there,
    yet [agent-thought] is not inferred. *)
Lemma agent_thought_any_token_counterexample :
  ¬ agent_thought_by_any_token
      (ApiModel "acme/mix-7b-72b" None None None None [] None).
Proof.
  unfold agent_thought_by_any_token. intros [_ Hclaim].
  assert (Hno : feature_value AGENT_THOUGHT ∉
            determine_model_features
              (ApiModel "acme/mix-7b-72b" None None None None [] None)).
  { rewrite agent_thought_inferred. by vm_compute. }
  apply Hno, Hclaim. right; right. exists "72". split; [|by vm_compute].
  split_and!; [done|reflexivity|reflexivity].
Qed.


(** * Dictionaries *)

Section odict_facts.
Context {K : Type} `{EqDecision K} {V : Type}.
Implicit Types (k : K) (v : V) (d : list (K * V)).

Lemma oget_oset_eq k v d : oget k (oset k v d) = Some v.
Proof.
  induction d as [|[k' v'] d IH]; simpl.
  - by rewrite decide_True.
  - destruct (decide (k = k')) as [->|Hne]; simpl.
    + by rewrite decide_True.
    + by rewrite decide_False.
Qed.

Lemma oget_oset_ne k k' v d : k ≠ k' → oget k' (oset k v d) = oget k' d.
Proof.
  intros Hne. induction d as [|[k0 v0] d IH]; simpl.
  - by rewrite decide_False.
  - destruct (decide (k = k0)) as [->|Hne0]; simpl.
    + by rewrite !decide_False by done.
    + destruct (decide (k' = k0)); [done|apply IH].
Qed.

Lemma oset_nonempty k v d : oset k v d ≠ [].
Proof. destruct d as [|[k' v'] d]; simpl; [done|]. by destruct (decide (k = k')). Qed.

Lemma oget_Some_elem_of k v d : oget k d = Some v → (k, v) ∈ d.
Proof.
  induction d as [|[k' v'] d IH]; simpl; [done|].
  destruct (decide (k = k')) as [->|Hne].
  - intros [= ->]. left.
  - intros Hd. right. by apply IH.
Qed.

Lemma oget_None_not_elem_of k d : oget k d = None ↔ k ∉ d.*1.
Proof.
  induction d as [|[k' v'] d IH]; simpl.
  - split; [intros _; apply not_elem_of_nil|done].
  - rewrite not_elem_of_cons. destruct (decide (k = k')) as [->|Hne]; [naive_solver|].
    rewrite IH. naive_solver.
Qed.

Lemma oget_is_Some k d : is_Some (oget k d) ↔ k ∈ d.*1.
Proof.
  rewrite <- not_eq_None_Some, oget_None_not_elem_of.
  destruct (decide (k ∈ d.*1)); naive_solver.
Qed.

Lemma elem_of_oget_NoDup k v d : NoDup d.*1 → (k, v) ∈ d → oget k d = Some v.
Proof.
  induction d as [|[k' v'] d IH]; simpl; [by intros _ ?%elem_of_nil|].
  intros [Hk' Hd]%NoDup_cons [[= -> ->]|Hin]%elem_of_cons.
  - by rewrite decide_True.
  - rewrite decide_False; [by apply IH|]. intros ->. apply Hk'.
    apply list_elem_of_fmap. by exists (k', v).
Qed.

(** Assigning to a new key appends. *)
Lemma oset_fresh k v d : k ∉ d.*1 → oset k v d = d ++ [(k, v)].
Proof.
  induction d as [|[k' v'] d IH]; simpl; [done|].
  intros [Hne Hd]%not_elem_of_cons. by rewrite decide_False, IH.
Qed.

(** Assigning again to the key assigned last. *)
Lemma oset_last k v v' d :
  k ∉ d.*1 → oset k v' (d ++ [(k, v)]) = d ++ [(k, v')].
Proof.
  induction d as [|[k0 v0] d IH]; simpl.
  - by rewrite decide_True.
  - intros [Hne Hd]%not_elem_of_cons. by rewrite decide_False, IH.
Qed.

Lemma oset_keys_present k v d : k ∈ d.*1 → (oset k v d).*1 = d.*1.
Proof.
  induction d as [|[k' v'] d IH]; simpl; [by intros ?%elem_of_nil|].
  destruct (decide (k = k')) as [->|Hne]; [done|].
  intros [?|Hin]%elem_of_cons; [done|]. rewrite !fmap_cons. f_equal. by apply IH.
Qed.

Lemma oset_keys k v d :
  (oset k v d).*1 = if decide (k ∈ d.*1) then d.*1 else d.*1 ++ [k].
Proof.
  case_decide.
  - by apply oset_keys_present.
  - rewrite oset_fresh by done. by rewrite fmap_app.
Qed.

Lemma NoDup_oset_keys k v d : NoDup d.*1 → NoDup (oset k v d).*1.
Proof.
  intros Hd. rewrite oset_keys. case_decide; [done|].
  apply NoDup_app. split_and!; [done| |apply NoDup_singleton].
  intros x Hx ->%list_elem_of_singleton. done.
Qed.

End odict_facts.

(** * Comparisons and updates of one definition *)

Lemma result_bind_Ok {A B} (f : A → result B) (r : result A) b :
  r ≫= f = Ok b ↔ ∃ a, r = Ok a ∧ f a = Ok b.
Proof. destruct r; cbn; naive_solver. Qed.

Lemma py_eq_of_scalar x : py_eq (of_scalar x) x = true.
Proof. destruct x; cbn; [done|apply Z.eqb_refl|by apply bool_decide_eq_true]. Qed.

Lemma py_eq_str v s : py_eq v (SStr s) = true ↔ v = VStr s.
Proof.
  destruct v; cbn; try (split; [discriminate|done]).
  rewrite bool_decide_eq_true. naive_solver.
Qed.

Lemma py_getitem_Ok v k x :
  py_getitem v k = Ok x ↔ ∃ d, v = VDict d ∧ oget k d = Some x.
Proof.
  destruct v; cbn; try (split; [discriminate|naive_solver]).
  destruct (oget k d) eqn:E; naive_solver.
Qed.

Lemma py_setitem_Ok v k x v' :
  py_setitem v k x = Ok v' ↔ ∃ d, v = VDict d ∧ v' = VDict (oset k x d).
Proof. destruct v; cbn; naive_solver. Qed.

Lemma update_context_size_Ok api_model st st' :
  update_context_size api_model st = Ok st' →
  context_size_matches api_model st'.1 ∧
  (∀ key, key ≠ "model_properties" → oget key st'.1 = oget key st.1) ∧
  unchanged_or_reported st st'.
Proof.
  destruct st as [d ch]. unfold update_context_size.
  intros (v & Hv & Hrest)%result_bind_Ok.
  destruct (py_eq v _) eqn:Heq; cbn [negb] in Hrest.
  - injection Hrest as <-. split_and!; [by exists v|done|by left].
  - apply result_bind_Ok in Hrest as (mp & (d0 & [= <-] & Hmp)%py_getitem_Ok & Hrest).
    apply result_bind_Ok in Hrest as (mp' & (mpd & -> & ->)%py_setitem_Ok & [= <-]).
    cbn [fst snd]. split_and!.
    + eexists. rewrite oget_oset_eq. cbn. rewrite oget_oset_eq. cbn.
      split; [done|apply py_eq_of_scalar].
    + intros key Hkey. by rewrite oget_oset_ne.
    + right. split; [by eexists|apply oset_nonempty].
Qed.

Lemma update_context_size_matches api_model d ch :
  context_size_matches api_model d →
  update_context_size api_model (d, ch) = Ok (d, ch).
Proof.
  intros (v & Hv & Heq). unfold update_context_size. rewrite Hv. cbn.
  by rewrite Heq.
Qed.

Lemma update_price_Ok field price mk st st' :
  update_price field price mk st = Ok st' →
  price_matches field price st'.1 ∧
  (∀ key, key ≠ "pricing" → oget key st'.1 = oget key st.1) ∧
  (∀ field' price', field' ≠ field →
     price_matches field' price' st.1 → price_matches field' price' st'.1) ∧
  unchanged_or_reported st st'.
Proof.
  destruct st as [d ch]. unfold update_price.
  intros (pricing & (d0 & [= <-] & Hp)%py_getitem_Ok & Hrest)%result_bind_Ok.
  apply result_bind_Ok in Hrest as (old & (pd & -> & Hold)%py_getitem_Ok & Hrest).
  destruct (py_eq old _) eqn:Heq; cbn [negb] in Hrest.
  - injection Hrest as <-. apply py_eq_str in Heq as ->.
    split_and!; [by exists pd|done|done|by left].
  - apply result_bind_Ok in Hrest as (p' & (pd' & [= <-] & ->)%py_setitem_Ok & [= <-]).
    cbn [fst snd]. split_and!.
    + eexists. by rewrite !oget_oset_eq.
    + intros key Hkey. by rewrite oget_oset_ne.
    + intros field' price' Hne (pd' & Hpd' & Hf). rewrite Hp in Hpd'.
      injection Hpd' as <-. eexists. rewrite oget_oset_eq. split; [done|].
      by rewrite oget_oset_ne.
    + right. split; [by eexists|apply oset_nonempty].
Qed.

Lemma update_price_matches field price mk d ch :
  price_matches field price d →
  update_price field price mk (d, ch) = Ok (d, ch).
Proof.
  intros (pd & Hpd & Hf). unfold update_price. cbn. rewrite Hpd. cbn.
  rewrite Hf. cbn. by rewrite bool_decide_true.
Qed.

Lemma update_labels_Ok api_model st st' :
  update_labels api_model st = Ok st' →
  labels_match api_model st'.1 ∧
  (∀ key, key ≠ "label" → oget key st'.1 = oget key st.1) ∧
  unchanged_or_reported st st'.
Proof.
  destruct st as [d ch]. unfold update_labels.
  intros (label & (d0 & [= <-] & Hl)%py_getitem_Ok & Hrest)%result_bind_Ok.
  apply result_bind_Ok in Hrest as (zh & (ld & -> & Hzh)%py_getitem_Ok & Hrest).
  apply result_bind_Ok in Hrest as (differs & Hdiff & Hrest).
  destruct differs.
  - apply result_bind_Ok in Hrest as (en & _ & Hrest). cbn in Hrest.
    injection Hrest as <-. cbn [fst snd]. split_and!.
    + eexists. rewrite oget_oset_eq. split; [done|].
      rewrite oget_oset_eq. by rewrite oget_oset_ne, oget_oset_eq.
    + intros key Hkey. by rewrite oget_oset_ne.
    + right. split; [by eexists|apply oset_nonempty].
  - injection Hrest as <-.
    destruct (py_eq zh _) eqn:Hzheq; cbn [negb] in Hdiff; [|done].
    apply result_bind_Ok in Hdiff as (en & (ld' & [= <-] & Hen)%py_getitem_Ok & [= Henq]).
    apply negb_false_iff in Henq.
    apply py_eq_str in Hzheq as ->. apply py_eq_str in Henq as ->.
    split_and!; [by exists ld|done|by left].
Qed.

Lemma update_labels_matches api_model d ch :
  labels_match api_model d → update_labels api_model (d, ch) = Ok (d, ch).
Proof.
  intros (ld & Hld & Hzh & Hen). unfold update_labels. cbn. rewrite Hld. cbn.
  rewrite Hzh. cbn. rewrite bool_decide_true by done. cbn.
  rewrite Hen. cbn. by rewrite bool_decide_true.
Qed.

Lemma set_eqb_true a b : set_eqb a b = true ↔ ∀ k, k ∈ a ↔ k ∈ b.
Proof.
  unfold set_eqb. rewrite andb_true_iff, !forallb_forall.
  setoid_rewrite bool_decide_eq_true. setoid_rewrite <- list_elem_of_In.
  naive_solver.
Qed.

Lemma hash_all_strings l : hash_all (VStr <$> l) = Ok (KStr <$> l).
Proof. induction l as [|s l IH]; [done|]. cbn. by rewrite IH. Qed.

Lemma update_features_Ok api_model st st' :
  update_features api_model st = Ok st' →
  features_match api_model st'.1 ∧
  (∀ key, key ≠ "features" → oget key st'.1 = oget key st.1) ∧
  unchanged_or_reported st st'.
Proof.
  destruct st as [d ch]. unfold update_features.
  intros (members & Hm & Hrest)%result_bind_Ok.
  destruct (set_eqb members _) eqn:Heq; cbn [negb] in Hrest; injection Hrest as <-.
  - split_and!; [|done|by left]. exists members. by rewrite <- set_eqb_true.
  - cbn [fst snd]. split_and!.
    + eexists. rewrite oget_oset_eq. cbn. by rewrite hash_all_strings.
    + intros key Hkey. by rewrite oget_oset_ne.
    + right. split; [by eexists|apply oset_nonempty].
Qed.

Lemma update_features_matches api_model d ch :
  features_match api_model d → update_features api_model (d, ch) = Ok (d, ch).
Proof.
  intros (members & Hm & Heq%set_eqb_true). unfold update_features.
  rewrite Hm. cbn. by rewrite Heq.
Qed.

(** Each group of fields is read from one key of the definition. *)
Lemma context_size_matches_ext api_model d d' :
  oget "model_properties" d' = oget "model_properties" d →
  context_size_matches api_model d → context_size_matches api_model d'.
Proof. unfold context_size_matches. by intros ->. Qed.

Lemma price_matches_ext field price d d' :
  oget "pricing" d' = oget "pricing" d →
  price_matches field price d → price_matches field price d'.
Proof. unfold price_matches. by intros ->. Qed.

Lemma labels_match_ext api_model d d' :
  oget "label" d' = oget "label" d →
  labels_match api_model d → labels_match api_model d'.
Proof. unfold labels_match. by intros ->. Qed.

Lemma unchanged_or_reported_length st st' :
  unchanged_or_reported st st' → (length st.2 ≤ length st'.2)%nat.
Proof.
  intros [->|[[c ->] _]]; [done|]. rewrite length_app. lia.
Qed.

Lemma unchanged_or_reported_same st st' :
  unchanged_or_reported st st' → (length st'.2 ≤ length st.2)%nat → st' = st.
Proof.
  intros [->|[[c Hc] _]]; [done|]. rewrite Hc, length_app. simpl. lia.
Qed.

Lemma unchanged_or_reported_nonempty st st' :
  unchanged_or_reported st st' → st.1 ≠ [] → st'.1 ≠ [].
Proof. by intros [->|[_ ?]]. Qed.

(** What a successful update leaves behind. *)
Lemma update_yaml_data_Ok api_model d d' changes :
  update_yaml_data api_model d = Ok (d', changes) →
  fields_match api_model d' ∧
  oget "model" d' = oget "model" d ∧
  (d ≠ [] → d' ≠ []) ∧
  (changes = [] → d' = d).
Proof.
  unfold update_yaml_data.
  intros (st1 & (M1 & F1 & R1)%update_context_size_Ok & H)%result_bind_Ok.
  apply result_bind_Ok in H as (st2 & (M2 & F2 & P2 & R2)%update_price_Ok & H).
  apply result_bind_Ok in H as (st3 & (M3 & F3 & P3 & R3)%update_price_Ok & H).
  apply result_bind_Ok in H as (st4 & (M4 & F4 & R4)%update_labels_Ok & H).
  apply update_features_Ok in H as (M5 & F5 & R5). cbn [fst snd] in *.
  split_and!.
  - split_and!; [| | |by eapply labels_match_ext; [apply F5|]|done].
    + eapply context_size_matches_ext; [|done].
      by rewrite F5, F4, F3, F2.
    + eapply price_matches_ext; [|apply P3; [done|apply M2]].
      by rewrite F5, F4.
    + eapply price_matches_ext; [|done]. by rewrite F5, F4.
  - by rewrite F5, F4, F3, F2, F1.
  - intros Hd.
    apply (unchanged_or_reported_nonempty _ _ R5).
    apply (unchanged_or_reported_nonempty _ _ R4).
    apply (unchanged_or_reported_nonempty _ _ R3).
    apply (unchanged_or_reported_nonempty _ _ R2).
    by apply (unchanged_or_reported_nonempty _ _ R1).
  - intros ->.
    pose proof (unchanged_or_reported_length _ _ R1) as L1.
    pose proof (unchanged_or_reported_length _ _ R2) as L2.
    pose proof (unchanged_or_reported_length _ _ R3) as L3.
    pose proof (unchanged_or_reported_length _ _ R4) as L4.
    pose proof (unchanged_or_reported_length _ _ R5) as L5.
    cbn [fst snd length] in *.
    apply unchanged_or_reported_same in R5; [|cbn; lia]. subst st4.
    apply unchanged_or_reported_same in R4; [|cbn; lia]. subst st3.
    apply unchanged_or_reported_same in R3; [|cbn; lia]. subst st2.
    apply unchanged_or_reported_same in R2; [|cbn; lia]. subst st1.
    apply unchanged_or_reported_same in R1; [|cbn; lia]. congruence.
Qed.

(** A definition whose fields match needs no change. *)
Lemma update_yaml_data_matches api_model d :
  fields_match api_model d → update_yaml_data api_model d = Ok (d, []).
Proof.
  intros (M1 & M2 & M3 & M4 & M5). unfold update_yaml_data.
  rewrite update_context_size_matches by done. cbn [mbind result_mbind result_bind].
  rewrite update_price_matches by done. cbn [mbind result_mbind result_bind].
  rewrite update_price_matches by done. cbn [mbind result_mbind result_bind].
  rewrite update_labels_matches by done. cbn [mbind result_mbind result_bind].
  by apply update_features_matches.
Qed.

Lemma update_yaml_data_idempotent api_model d d' changes :
  update_yaml_data api_model d = Ok (d', changes) →
  update_yaml_data api_model d' = Ok (d', []).
Proof. intros (? & _)%update_yaml_data_Ok. by apply update_yaml_data_matches. Qed.

(** * The template *)

Lemma create_yaml_template_Ok model_id api_model d :
  create_yaml_template model_id api_model = Ok d →
  fields_match api_model d ∧ oget "model" d = Some (VStr model_id) ∧ d ≠ [].
Proof.
  unfold create_yaml_template.
  intros (cs & Hcs & H)%result_bind_Ok.
  apply result_bind_Ok in H as (input & Hin & H).
  apply result_bind_Ok in H as (output & Hout & [= <-]).
  destruct (m_context_size api_model) as [cs'|] eqn:Ecs; [|done].
  destruct (m_input_token_price_per_m api_model) as [i'|] eqn:Ei; [|done].
  destruct (m_output_token_price_per_m api_model) as [o'|] eqn:Eo; [|done].
  cbn in Hcs, Hin, Hout. simplify_eq.
  split_and!; [|done..]. split_and!.
  - eexists. split; [reflexivity|]. rewrite Ecs. cbn. apply Z.eqb_refl.
  - eexists. split; [reflexivity|]. by rewrite Ei.
  - eexists. split; [reflexivity|]. by rewrite Eo.
  - eexists. split_and!; reflexivity.
  - eexists. split; [apply hash_all_strings|]. done.
Qed.



(** * The index file *)

Lemma elem_of_first_seen x l : x ∈ first_seen l ↔ x ∈ l.
Proof.
  induction l as [|a l IH]; [done|]. cbn [first_seen].
  rewrite !elem_of_cons, list_elem_of_filter, IH.
  destruct (decide (x = a)); naive_solver.
Qed.

Lemma NoDup_first_seen l : NoDup (first_seen l).
Proof.
  induction l as [|a l IH]; [constructor|]. cbn [first_seen].
  constructor; [|by apply NoDup_filter].
  rewrite list_elem_of_filter. naive_solver.
Qed.

Lemma first_seen_snoc l x :
  first_seen (l ++ [x]) = if decide (x ∈ l) then first_seen l else first_seen l ++ [x].
Proof.
  induction l as [|a l IH]; [done|]. cbn [app first_seen]. rewrite IH.
  destruct (decide (x = a)) as [->|Hne].
  - rewrite (decide_True (P := a ∈ a :: l)) by left.
    case_decide; [done|]. rewrite filter_app, filter_cons_False by naive_solver.
    by rewrite filter_nil, app_nil_r.
  - case_decide.
    + by rewrite decide_True by by right.
    + rewrite decide_False by (rewrite elem_of_cons; naive_solver).
      rewrite filter_app, filter_cons_True by done. by rewrite filter_nil.
Qed.

Lemma members_of_snoc provider model_ids x :
  members_of provider (model_ids ++ [x]) =
    members_of provider model_ids ++ (if decide (provider_of x = provider) then [x] else []).
Proof.
  unfold members_of. by rewrite filter_app.
Qed.

Lemma members_of_absent provider model_ids :
  provider ∉ provider_of <$> model_ids → members_of provider model_ids = [].
Proof.
  intros Hp. unfold members_of. induction model_ids as [|x l IH]; [done|].
  rewrite fmap_cons in Hp. apply not_elem_of_cons in Hp as [Hne Hp].
  rewrite filter_cons_False by done. by apply IH.
Qed.

(** Assigning to the key [p] of a dictionary that is tabulated over
    distinct keys. *)
Lemma oget_tabulated {V} (f : string → V) keys p :
  oget p ((λ q, (q, f q)) <$> keys) = if decide (p ∈ keys) then Some (f p) else None.
Proof.
  induction keys as [|k keys IH]; [done|]. cbn. rewrite IH.
  destruct (decide (p = k)) as [->|Hne].
  - by rewrite decide_True by left.
  - destruct (decide (p ∈ keys)).
    + by rewrite decide_True by by right.
    + by rewrite decide_False by (rewrite elem_of_cons; naive_solver).
Qed.

Lemma tabulated_ext {V} (f g : string → V) (keys : list string) :
  (∀ q, q ∈ keys → g q = f q) →
  (λ q, (q, g q)) <$> keys = (λ q, (q, f q)) <$> keys.
Proof.
  intros Hg. apply list_fmap_ext. intros i q Hq%list_elem_of_lookup_2.
  by rewrite Hg.
Qed.

Lemma oset_tabulated {V} (f g : string → V) keys p :
  NoDup keys → p ∈ keys → (∀ q, q ≠ p → g q = f q) →
  oset p (g p) ((λ q, (q, f q)) <$> keys) = (λ q, (q, g q)) <$> keys.
Proof.
  intros Hnd Hp Hg. induction Hnd as [|k keys Hk Hnd IH]; [by apply elem_of_nil in Hp|].
  cbn. destruct (decide (p = k)) as [->|Hne].
  - f_equal. symmetry. apply tabulated_ext. intros q Hq. apply Hg. by intros ->.
  - rewrite IH; [|by apply elem_of_cons in Hp as [?|?]]. by rewrite Hg.
Qed.

Lemma group_models_snoc model_ids x :
  group_models (model_ids ++ [x]) =
    let provider := provider_of x in
    let model_groups := group_models model_ids in
    let model_groups :=
      match oget provider model_groups with
      | None => oset provider [] model_groups
      | Some _ => model_groups
      end in
    oset provider (default [] (oget provider model_groups) ++ [x]) model_groups.
Proof. unfold group_models. by rewrite foldl_app. Qed.

(** The groups are the providers in the order of their first
    appearance, each with its identifiers in catalog order. *)
Lemma group_models_spec model_ids :
  group_models model_ids =
    (λ provider, (provider, members_of provider model_ids))
      <$> first_seen (provider_of <$> model_ids).
Proof.
  induction model_ids as [|x ids IH] using rev_ind; [done|].
  rewrite group_models_snoc, IH. cbv zeta.
  rewrite (fmap_app provider_of).
  change (provider_of <$> [x]) with [provider_of x]. rewrite first_seen_snoc.
  set (p := provider_of x). set (S := first_seen (provider_of <$> ids)).
  rewrite (oget_tabulated (λ q, members_of q ids)).
  destruct (decide (p ∈ provider_of <$> ids)) as [Hin|Hnin].
  - rewrite decide_True by (by apply elem_of_first_seen).
    rewrite (oget_tabulated (λ q, members_of q ids)).
    rewrite decide_True by (by apply elem_of_first_seen). cbn [default].
    rewrite <- (oset_tabulated (λ q, members_of q ids)
                  (λ q, members_of q (ids ++ [x])) S p).
    + f_equal. rewrite members_of_snoc. by rewrite decide_True.
    + apply NoDup_first_seen.
    + by apply elem_of_first_seen.
    + intros q Hq. rewrite members_of_snoc, decide_False by done. apply app_nil_r.
  - assert (p ∉ S) as HS by (unfold S; by rewrite elem_of_first_seen).
    rewrite decide_False by done.
    rewrite oget_oset_eq. cbn [default app].
    assert (p ∉ ((λ q, (q, members_of q ids)) <$> S).*1) as Hfresh.
    { rewrite <- list_fmap_compose. by rewrite list_fmap_id. }
    rewrite (oset_fresh p []) by done.
    rewrite oset_last by done.
    rewrite fmap_app. cbn [fmap list_fmap]. f_equal.
    + symmetry. apply tabulated_ext. intros q Hq.
      rewrite members_of_snoc, decide_False.
      * by rewrite app_nil_r.
      * intros Heq. apply HS. unfold p. by rewrite Heq.
    + rewrite members_of_snoc, decide_True by done.
      by rewrite members_of_absent.
Qed.

Lemma position_lines_spec api_data :
  position_lines api_data =
    flat_map (group_lines (m_id <$> api_data))
             (first_seen (provider_of <$> (m_id <$> api_data))).
Proof.
  unfold position_lines. rewrite group_models_spec.
  induction (first_seen _) as [|p ps IH]; [done|].
  cbn [fmap list_fmap flat_map]. by rewrite IH.
Qed.

(** C6.  For every catalog the index lists the providers in the order
    of their first appearance, each as a title-cased comment followed by
    its identifiers in catalog order and a blank line; for a catalog
    listing [acme/foo], [acme/bar] and [zeta/baz] in this order that is
    the group "Acme" with its two members, a blank line, and the group
    "Zeta".  The file is written with the trailing blank line removed. *)
Theorem position_yaml_groups api_data w :
  position_lines api_data =
    flat_map (group_lines (m_id <$> api_data))
             (first_seen (provider_of <$> (m_id <$> api_data))) ∧
  (create_position_yaml api_data w).1 = Ok () ∧
  files (create_position_yaml api_data w).2 !! position_name =
    Some (FText (Str.rstrip_ws (Str.join newline (position_lines api_data))
                 +:+ newline)) ∧
  (m_id <$> api_data = ["acme/foo"; "acme/bar"; "zeta/baz"] →
   position_lines api_data =
     ["# Acme Models"; "- acme/foo"; "- acme/bar"; "";
      "# Zeta Models"; "- zeta/baz"; ""] ∧
   position_content api_data =
     Str.join newline
       ["# Acme Models"; "- acme/foo"; "- acme/bar"; "";
        "# Zeta Models"; "- zeta/baz"] +:+ newline).
Proof.
  split_and!.
  - apply position_lines_spec.
  - done.
  - cbn. by rewrite lookup_insert_eq.
  - intros Hids. split.
    + unfold position_lines. by rewrite Hids.
    + unfold position_content, position_lines. by rewrite Hids.
Qed.

Lemma position_yaml_groups_witness :
  let api_data :=
    [ApiModel "acme/foo" None None None None [] None;
     ApiModel "acme/bar" None None None None [] None;
     ApiModel "zeta/baz" None None None None [] None] in
  position_lines api_data =
    ["# Acme Models"; "- acme/foo"; "- acme/bar"; "";
     "# Zeta Models"; "- zeta/baz"; ""].
Proof.
  intros api_data.
  apply (position_yaml_groups api_data (World ∅ [])). reflexivity.
Defined.


(** * Worlds and events *)

Lemma replay_app a b fs : replay (a ++ b) fs = replay b (replay a fs).
Proof. apply foldl_app. Qed.

Lemma extend_nil w : extend w [] = w.
Proof. destruct w. unfold extend. cbn. by rewrite app_nil_r. Qed.

Lemma extend_extend w a b : extend (extend w a) b = extend w (a ++ b).
Proof. unfold extend. cbn. by rewrite replay_app, app_assoc. Qed.

Lemma replay_prints events fs : Forall is_print events → replay events fs = fs.
Proof.
  intros H. revert fs. induction H as [|e events He _ IH]; intros fs; [done|].
  destruct e; [|done..]. apply IH.
Qed.

Lemma files_extend_prints w events :
  Forall is_print events → files (extend w events) = files w.
Proof. intros H. cbn. by apply replay_prints. Qed.

Lemma replay_untouched filename events fs :
  Forall (λ e, ¬ touches filename e) events →
  replay events fs !! filename = fs !! filename.
Proof.
  intros H. revert fs. induction H as [|e events He _ IH]; intros fs; [done|].
  change (e :: events) with ([e] ++ events). rewrite replay_app, IH.
  destruct e as [|f c|f]; cbn in *.
  - done.
  - by rewrite lookup_insert_ne.
  - by rewrite lookup_delete_ne.
Qed.

(** * The primitives of the script *)

Lemma M_bind_eq {A B} (m : M A) (f : A → M B) w :
  (m ≫= f) w =
    match m w with
    | (Ok a, w') => f a w'
    | (Raise e, w') => (Raise e, w')
    end.
Proof. reflexivity. Qed.

Lemma print_eq m w : print m w = (Ok (), extend w [Print m]).
Proof. reflexivity. Qed.

Lemma write_file_eq filename content w :
  write_file filename content w = (Ok (), extend w [WriteFile filename content]).
Proof. reflexivity. Qed.

Lemma os_remove_eq filename w :
  os_remove filename w =
    if decide (is_Some (files w !! filename))
    then (Ok (), extend w [RemoveFile filename])
    else (Raise (FileNotFoundError filename), w).
Proof.
  unfold os_remove. destruct (files w !! filename) eqn:E.
  - by rewrite decide_True.
  - rewrite decide_False; [done|]. by intros [? ?].
Qed.

Lemma load_yaml_file_eq filename w :
  load_yaml_file filename w =
    (Ok (loaded (files w !! filename)),
     extend w (load_prints filename (files w !! filename))).
Proof.
  unfold load_yaml_file.
  destruct (files w !! filename) as [[[]| |]|]; try reflexivity.
  cbn. by rewrite extend_nil.
Qed.

Lemma load_prints_print filename content : Forall scan_print (load_prints filename content).
Proof. destruct content as [[[]| |]|]; repeat constructor. Qed.

Lemma scan_print_is_print events : Forall scan_print events → Forall is_print events.
Proof. intros H. eapply Forall_impl; [done|]. by intros [[]| |]. Qed.

Lemma for_each_cons {A} (x : A) l body w :
  for_each (x :: l) body w =
    match body x w with
    | (Ok _, w') => for_each l body w'
    | (Raise e, w') => (Raise e, w')
    end.
Proof. reflexivity. Qed.

(** * The directory scan *)

Lemma scan_file_eq existing_files filename w :
  scan_file existing_files filename w =
    if scannable filename
    then (key ← registration (files w) filename;
          Ok (register key filename existing_files),
          extend w (Print (MsgLoading filename)
                      :: load_prints filename (files w !! filename)))
    else (Ok existing_files, w).
Proof.
  unfold scan_file, scannable, registration, scannable.
  destruct (negb (Str.endswith ".yaml" filename) || bool_decide _); [done|].
  cbn [negb]. rewrite M_bind_eq, print_eq, M_bind_eq, load_yaml_file_eq.
  rewrite extend_extend. cbn [app].
  change (files (extend w [Print (MsgLoading filename)])) with (files w).
  destruct (files w !! filename) as [[[| | | | |[|kv d]]| |]|]; try reflexivity.
  cbn [loaded file_key]. destruct (truthy _); [|reflexivity].
  rewrite M_bind_eq. unfold lift. by destruct (py_hash _).
Qed.

Lemma scan_eq filenames existing_files w :
  ∃ events, Forall scan_print events ∧
    for_fold filenames scan_file existing_files w =
      (scan_result (files w) filenames existing_files, extend w events).
Proof.
  revert existing_files w.
  induction filenames as [|f filenames IH]; intros ex w.
  - exists []. by rewrite extend_nil.
  - cbn [for_fold scan_result]. rewrite M_bind_eq, scan_file_eq.
    destruct (scannable f) eqn:Hf.
    + destruct (registration (files w) f) as [key|e] eqn:Hreg; cbn.
      * edestruct (IH (register key f ex)) as (events & Hev & ->).
        eexists. split; [|rewrite extend_extend].
        2:{ rewrite files_extend_prints;
              [done|constructor; [done|apply scan_print_is_print, load_prints_print]]. }
        constructor; [done|]. apply Forall_app. split; [apply load_prints_print|done].
      * eexists. split; [|done]. constructor; [done|apply load_prints_print].
    + assert (registration (files w) f = Ok None) as ->.
      { unfold registration. by rewrite Hf. }
      cbn. apply IH.
Qed.

(** * The loops as sequences of events *)

Lemma for_each_prints changes w :
  for_each changes (λ change, print (MsgChange change)) w =
    (Ok (), extend w ((λ c, Print (MsgChange c)) <$> changes)).
Proof.
  revert w. induction changes as [|c changes IH]; intros w.
  - cbn. by rewrite extend_nil.
  - rewrite for_each_cons, print_eq, IH, extend_extend. done.
Qed.

Lemma process_model_eq existing_files item w :
  process_model existing_files item w =
    ((process_step existing_files item (files w)).1,
     extend w (process_step existing_files item (files w)).2).
Proof.
  destruct item as [m r]. unfold process_model, process_step.
  destruct (oget (KStr m) existing_files) as [f|].
  - rewrite M_bind_eq, load_yaml_file_eq, M_bind_eq. unfold lift.
    destruct (update_yaml_data r _) as [[d' [|c ch]]|e]; cbn [fst snd].
    + by rewrite print_eq, extend_extend.
    + rewrite M_bind_eq. unfold save_yaml_file. rewrite write_file_eq.
      rewrite M_bind_eq, print_eq, for_each_prints, !extend_extend. done.
    + done.
  - rewrite M_bind_eq. unfold lift.
    destruct (create_yaml_template m r) as [d|e]; cbn [fst snd].
    + unfold save_yaml_file.
      rewrite M_bind_eq, write_file_eq, print_eq, extend_extend. done.
    + by rewrite extend_nil.
Qed.

Lemma delete_stale_eq api_models item w :
  delete_stale api_models item w =
    ((delete_step api_models item (files w)).1,
     extend w (delete_step api_models item (files w)).2).
Proof.
  destruct item as [k f]. unfold delete_stale, delete_step.
  destruct (in_catalog api_models k); cbn [negb].
  - cbn. by rewrite extend_nil.
  - rewrite M_bind_eq, os_remove_eq.
    destruct (files w !! f) eqn:E.
    + rewrite decide_True by done. by rewrite print_eq, extend_extend.
    + rewrite decide_False by (by intros [? ?]). cbn. by rewrite extend_nil.
Qed.

Lemma for_each_run_steps {A} (body : A → M unit) step l w :
  (∀ x w, body x w = ((step x (files w)).1, extend w (step x (files w)).2)) →
  for_each l body w =
    ((run_steps step l (files w)).1, extend w (run_steps step l (files w)).2).
Proof.
  intros Hbody. revert w. induction l as [|x l IH]; intros w.
  - cbn. by rewrite extend_nil.
  - rewrite for_each_cons, Hbody. cbn [run_steps].
    destruct (step x (files w)) as [[[]|e] events]; cbn [fst snd]; [|done].
    rewrite IH. cbn [files extend].
    destruct (run_steps step l _) as [r events']. cbn [fst snd].
    by rewrite extend_extend.
Qed.

(** The whole run as a sequence of events. *)
Lemma sync_yaml_files_eq api_data w :
  ∃ prints, Forall scan_print prints ∧
    let fs1 := scanned_files api_data (files w) in
    let api_models := index_by_id api_data in
    let ev0 := WriteFile position_name (FText (position_content api_data)) :: prints in
    sync_yaml_files api_data w =
      match scan_result fs1 (map_to_list fs1).*1 [] with
      | Raise e => (Raise e, extend w ev0)
      | Ok existing_files =>
          match run_steps (process_step existing_files) api_models fs1 with
          | (Raise e, ev1) => (Raise e, extend w (ev0 ++ ev1))
          | (Ok _, ev1) =>
              ((run_steps (delete_step api_models) existing_files (replay ev1 fs1)).1,
               extend w (ev0 ++ ev1 ++
                 (run_steps (delete_step api_models) existing_files
                            (replay ev1 fs1)).2))
          end
      end.
Proof.
  unfold sync_yaml_files, create_position_yaml.
  set (w1 := extend w [WriteFile position_name (FText (position_content api_data))]).
  destruct (scan_eq (map_to_list (files w1)).*1 [] w1) as (prints & Hprints & Hscan).
  exists prints. split; [done|]. cbv zeta.
  set (fs1 := scanned_files api_data (files w)).
  set (api_models := index_by_id api_data).
  set (ev0 := WriteFile position_name (FText (position_content api_data)) :: prints).
  rewrite M_bind_eq, write_file_eq. fold w1.
  rewrite M_bind_eq. unfold listdir at 1. rewrite M_bind_eq, Hscan.
  change (files w1) with fs1.
  destruct (scan_result fs1 _ []) as [ex|e]; [|by unfold w1; rewrite extend_extend].
  rewrite M_bind_eq.
  rewrite (for_each_run_steps _ (process_step ex)) by apply process_model_eq.
  rewrite (files_extend_prints w1 prints) by (by apply scan_print_is_print).
  change (files w1) with fs1.
  unfold w1. rewrite !extend_extend. cbn [app]. fold ev0.
  destruct (run_steps (process_step ex) api_models fs1) as [[[]|e] ev1];
    cbn [fst snd]; [|done].
  rewrite (for_each_run_steps _ (delete_step api_models)) by apply delete_stale_eq.
  rewrite extend_extend. cbn [files extend].
  assert (replay (WriteFile position_name (FText (position_content api_data))
                    :: prints ++ ev1) (files w) = replay ev1 fs1) as ->.
  { change (?e :: prints ++ ev1) with ([e] ++ prints ++ ev1).
    rewrite !replay_app. by rewrite (replay_prints prints) by (by apply scan_print_is_print). }
  unfold ev0. by rewrite <- !app_comm_cons, <- app_assoc.
Qed.


(** * The catalog keyed by identifier *)

Lemma elem_of_oset {K V} `{EqDecision K} (k k' : K) (v v' : V) d :
  (k', v') ∈ oset k v d → (k', v') = (k, v) ∨ (k', v') ∈ d.
Proof.
  induction d as [|[k0 v0] d IH]; cbn.
  - intros ?%list_elem_of_singleton. by left.
  - destruct (decide (k = k0)) as [->|Hne]; rewrite !elem_of_cons; naive_solver.
Qed.

Lemma elem_of_oset_keys {K V} `{EqDecision K} (k k' : K) (v : V) d :
  k' ∈ (oset k v d).*1 ↔ k' = k ∨ k' ∈ d.*1.
Proof.
  rewrite oset_keys. case_decide; [naive_solver|].
  rewrite elem_of_app, list_elem_of_singleton. naive_solver.
Qed.

Lemma index_from_spec (data : list api_model) d0 :
  let d := foldl (λ api_models model, oset (m_id model) model api_models) d0 data in
  (NoDup d0.*1 → NoDup d.*1) ∧
  (∀ m, m ∈ d.*1 ↔ m ∈ d0.*1 ∨ m ∈ m_id <$> data) ∧
  (∀ m r, (m, r) ∈ d → (m, r) ∈ d0 ∨ (m_id r = m ∧ r ∈ data)).
Proof.
  revert d0. induction data as [|x data IH]; intros d0; cbn.
  - split_and!; [done| |by left]. intros m. rewrite elem_of_nil. naive_solver.
  - destruct (IH (oset (m_id x) x d0)) as (IH1 & IH2 & IH3). split_and!.
    + intros Hd0. by apply IH1, NoDup_oset_keys.
    + intros m. rewrite IH2, elem_of_oset_keys, elem_of_cons. naive_solver.
    + intros m r [[[= -> ->]|?]%elem_of_oset|[? ?]]%IH3.
      * right. split; [done|left].
      * by left.
      * right. split; [done|by right].
Qed.

Lemma index_by_id_NoDup api_data : NoDup (index_by_id api_data).*1.
Proof. apply (index_from_spec api_data []). constructor. Qed.

Lemma index_by_id_keys api_data m :
  m ∈ (index_by_id api_data).*1 ↔ m ∈ m_id <$> api_data.
Proof.
  destruct (index_from_spec api_data []) as (_ & H & _). rewrite H.
  cbn. rewrite elem_of_nil. naive_solver.
Qed.

Lemma in_catalog_true api_models k :
  in_catalog api_models k = true ↔ ∃ m, k = KStr m ∧ m ∈ api_models.*1.
Proof.
  destruct k as [|z|m]; cbn; [naive_solver..|].
  rewrite bool_decide_eq_true, oget_is_Some. naive_solver.
Qed.

(** * Definition files *)

Lemma py_hash_KStr v m : py_hash v = Ok (KStr m) ↔ v = VStr m.
Proof. destruct v as [|[]| | | |]; cbn; naive_solver. Qed.

Lemma file_key_KStr content m :
  file_key content = Ok (Some (KStr m)) ↔
  ∃ d, content = FYaml (VDict d) ∧ oget "model" d = Some (VStr m) ∧ m ≠ "".
Proof.
  split.
  - destruct content as [[| | | | |[|kv d]]| |]; try (intros [=]; fail). cbn [file_key].
    destruct (oget "model" (kv :: d)) as [v|] eqn:Hv; [|cbn; intros [=]].
    change (default VNone (Some v)) with v.
    destruct (truthy v) eqn:Ht; [|intros [=]].
    intros (k & Hk & [= ->])%result_bind_Ok. apply py_hash_KStr in Hk as ->.
    eexists. split_and!; [done..|]. intros ->. done.
  - intros (d & -> & Hm & Hne). destruct d as [|kv d]; [done|]. cbn [file_key].
    rewrite Hm. cbn. rewrite bool_decide_false by done. done.
Qed.

Lemma registration_Some fs filename k :
  registration fs filename = Ok (Some k) ↔
  scannable filename = true ∧
  ∃ content, fs !! filename = Some content ∧ file_key content = Ok (Some k).
Proof.
  unfold registration. destruct (scannable filename); [|naive_solver].
  destruct (fs !! filename); naive_solver.
Qed.

Lemma registration_ext fs fs' filename :
  fs' !! filename = fs !! filename →
  registration fs' filename = registration fs filename.
Proof. unfold registration. by intros ->. Qed.

Lemma elem_of_definitions fs k filename :
  (k, filename) ∈ definitions fs ↔ registration fs filename = Ok (Some k).
Proof.
  unfold definitions, definitions_among. rewrite list_elem_of_omap. split.
  - intros (f & _ & Hf). destruct (registration fs f) as [[k'|]|] eqn:E; naive_solver.
  - intros Hreg. exists filename. rewrite Hreg. split; [|done].
    apply registration_Some in Hreg as (_ & c & Hc & _).
    apply list_elem_of_fmap. exists (filename, c). split; [done|].
    by apply elem_of_map_to_list.
Qed.

Lemma NoDup_definitions_files fs : NoDup (definitions fs).*2.
Proof.
  unfold definitions, definitions_among.
  pose proof (NoDup_fst_map_to_list fs) as Hnd.
  induction Hnd as [|f l Hf _ IH]; cbn; [constructor|].
  destruct (registration fs f) as [[k|]|]; cbn; [|done..].
  constructor; [|done]. intros ((k' & f') & -> & Hin)%list_elem_of_fmap.
  apply list_elem_of_omap in Hin as (x & Hx & Heq).
  destruct (registration fs x) as [[?|]|]; naive_solver.
Qed.

(** * The result of the scan *)

Lemma scan_result_elem fs filenames existing_files existing_files' k filename :
  scan_result fs filenames existing_files = Ok existing_files' →
  (k, filename) ∈ existing_files' →
  (k, filename) ∈ existing_files ∨ registration fs filename = Ok (Some k).
Proof.
  revert existing_files. induction filenames as [|f filenames IH]; intros ex; cbn.
  - intros [= ->]. by left.
  - intros (o & Hreg & Hrest)%result_bind_Ok Hin.
    destruct (IH _ Hrest Hin) as [Hex|?]; [|by right].
    destruct o as [k'|]; cbn in Hex; [|by left].
    apply elem_of_oset in Hex as [[= -> ->]|?]; [by right|by left].
Qed.

Lemma scan_result_registrations fs filenames existing_files existing_files' :
  scan_result fs filenames existing_files = Ok existing_files' →
  ∀ filename, filename ∈ filenames → ∃ o, registration fs filename = Ok o.
Proof.
  revert existing_files. induction filenames as [|f filenames IH]; intros ex; cbn.
  - by intros _ f ?%elem_of_nil.
  - intros (o & Hreg & Hrest)%result_bind_Ok f' [->|Hin]%elem_of_cons; [by eexists|].
    by eapply IH.
Qed.

Lemma scan_result_distinct fs filenames existing_files existing_files' :
  scan_result fs filenames existing_files = Ok existing_files' →
  NoDup (existing_files ++ definitions_among fs filenames).*1 →
  existing_files' = existing_files ++ definitions_among fs filenames.
Proof.
  revert existing_files. induction filenames as [|f filenames IH]; intros ex; cbn.
  - intros [= ->] _. by rewrite app_nil_r.
  - intros (o & Hreg & Hrest)%result_bind_Ok Hnd. rewrite Hreg in Hnd |- *.
    destruct o as [k|]; cbn in Hrest; [|by apply IH].
    assert (k ∉ ex.*1) as Hk.
    { rewrite fmap_app in Hnd. apply NoDup_app in Hnd as (_ & Hdisj & _).
      intros Hin. apply (Hdisj k Hin). cbn. left. }
    rewrite oset_fresh in Hrest by done.
    rewrite (IH _ Hrest); [by rewrite <- app_assoc|].
    by rewrite <- app_assoc.
Qed.

Lemma scan_result_total fs filenames existing_files :
  (∀ filename, filename ∈ filenames → ∃ o, registration fs filename = Ok o) →
  ∃ existing_files', scan_result fs filenames existing_files = Ok existing_files'.
Proof.
  revert existing_files. induction filenames as [|f filenames IH]; intros ex Hreg; cbn.
  - by eexists.
  - destruct (Hreg f) as [o ->]; [left|]. cbn. apply IH.
    intros f' Hf'. apply Hreg. by right.
Qed.

Lemma scan_result_definitions fs existing_files :
  scan_result fs (map_to_list fs).*1 [] = Ok existing_files →
  distinct_models fs → existing_files = definitions fs.
Proof. intros Hscan Hnd. by apply (scan_result_distinct _ _ [] _ Hscan). Qed.

Lemma registration_Ok fs filename :
  (∀ content, fs !! filename = Some content → ∃ o, file_key content = Ok o) →
  ∃ o, registration fs filename = Ok o.
Proof.
  intros H. unfold registration. destruct (scannable filename); [|by eexists].
  destruct (fs !! filename); [by apply H|by eexists].
Qed.

Lemma file_key_model d m :
  oget "model" d = Some (VStr m) →
  file_key (FYaml (VDict d)) = if decide (m = "") then Ok None else Ok (Some (KStr m)).
Proof.
  intros Hm. destruct d as [|kv d]; [done|]. cbn [file_key]. rewrite Hm. cbn.
  case_decide.
  - by rewrite bool_decide_true.
  - by rewrite bool_decide_false.
Qed.

(** * File names *)

Lemma rev_app_app s t acc :
  String.rev_app (s +:+ t) acc = String.rev_app t (String.rev_app s acc).
Proof. revert acc. induction s as [|c s IH]; intros acc; [done|]. rewrite app_cons. cbn. apply IH. Qed.

Lemma rev_app_acc s acc : String.rev_app s acc = String.rev_app s "" +:+ acc.
Proof.
  revert acc. induction s as [|c s IH]; intros acc; [done|]. cbn.
  rewrite IH, (IH (String c "")). by rewrite app_assoc_str.
Qed.

Lemma startswith_app p s : Str.startswith p (p +:+ s) = true.
Proof.
  induction p as [|c p IH]; [done|]. rewrite app_cons. cbn.
  by rewrite Ascii.eqb_refl, IH.
Qed.

Lemma endswith_app p s : Str.endswith p (s +:+ p) = true.
Proof.
  unfold Str.endswith, String.rev. rewrite rev_app_app, (rev_app_acc p (String.rev_app s "")).
  apply startswith_app.
Qed.

Lemma scannable_endswith filename :
  scannable filename = Str.endswith ".yaml" filename.
Proof.
  unfold scannable. destruct (Str.endswith ".yaml" filename) eqn:E; [|done].
  cbn. rewrite bool_decide_false; [done|].
  rewrite !elem_of_cons, elem_of_nil. intros [->|[->|[]]]; discriminate.
Qed.

Lemma scannable_new_filename model_id : scannable (new_filename model_id) = true.
Proof. rewrite scannable_endswith. apply endswith_app. Qed.


(** * The processing loop *)

Lemma replay_cons e events fs : replay (e :: events) fs = replay events (replay [e] fs).
Proof. reflexivity. Qed.

Lemma holds_definition_ext fs fs' filename model_id api_model :
  fs' !! filename = fs !! filename →
  holds_definition fs filename model_id api_model →
  holds_definition fs' filename model_id api_model.
Proof. unfold holds_definition. by intros ->. Qed.

Lemma target_registered existing_files model_id filename :
  oget (KStr model_id) existing_files = Some filename →
  target existing_files model_id = filename.
Proof. unfold target. by intros ->. Qed.

Lemma target_new existing_files model_id :
  oget (KStr model_id) existing_files = None →
  target existing_files model_id = new_filename model_id.
Proof. unfold target. by intros ->. Qed.

(** One successful iteration leaves the definition of its identifier in
    the target file and touches no other file. *)
Lemma process_step_Ok existing_files m r fs events :
  process_step existing_files (m, r) fs = (Ok (), events) →
  (∀ filename, oget (KStr m) existing_files = Some filename →
     ∃ d, fs !! filename = Some (FYaml (VDict d)) ∧ oget "model" d = Some (VStr m)) →
  holds_definition (replay events fs) (target existing_files m) m r ∧
  (∀ filename, filename ≠ target existing_files m →
     replay events fs !! filename = fs !! filename).
Proof.
  unfold process_step. intros Hstep Hpre.
  destruct (oget (KStr m) existing_files) as [f|] eqn:Hreg.
  - rewrite (target_registered _ _ _ Hreg).
    destruct (Hpre f eq_refl) as (d & Hf & Hmodel). rewrite Hf in Hstep.
    cbn [loaded load_prints app] in Hstep.
    destruct (update_yaml_data r d) as [[d' ch]|e] eqn:Hup; [|done].
    apply update_yaml_data_Ok in Hup as (Hmatch & Hm' & _ & Hsame).
    destruct ch as [|c ch]; injection Hstep as <-.
    + rewrite Hsame in * by done. split; [|done]. by exists d.
    + rewrite replay_cons, replay_prints by (repeat constructor; by apply Forall_fmap, Forall_true).
      cbn. split.
      * exists d'. rewrite lookup_insert_eq. by rewrite Hm'.
      * intros f' Hne. by rewrite lookup_insert_ne.
  - rewrite (target_new _ _ Hreg).
    destruct (create_yaml_template m r) as [d|e] eqn:Htpl; [|done].
    injection Hstep as <-. cbn.
    apply create_yaml_template_Ok in Htpl as (Hmatch & Hmodel & _). split.
    + exists d. by rewrite lookup_insert_eq.
    + intros f' Hne. by rewrite lookup_insert_ne.
Qed.

Lemma run_steps_cons_Ok {A} (step : A → gmap string file → result unit * list event)
    x l fs events :
  run_steps step (x :: l) fs = (Ok (), events) →
  ∃ ev1 ev2, step x fs = (Ok (), ev1) ∧
    run_steps step l (replay ev1 fs) = (Ok (), ev2) ∧ events = ev1 ++ ev2.
Proof.
  cbn. destruct (step x fs) as [[[]|e] ev1]; [|done].
  destruct (run_steps step l (replay ev1 fs)) as [r ev2] eqn:Hrest.
  intros [= -> <-]. by exists ev1, ev2.
Qed.

Lemma process_loop_Ok existing_files api_models fs events :
  run_steps (process_step existing_files) api_models fs = (Ok (), events) →
  NoDup (target existing_files <$> api_models.*1) →
  (∀ m r filename, (m, r) ∈ api_models →
     oget (KStr m) existing_files = Some filename →
     ∃ d, fs !! filename = Some (FYaml (VDict d)) ∧ oget "model" d = Some (VStr m)) →
  (∀ m r, (m, r) ∈ api_models →
     holds_definition (replay events fs) (target existing_files m) m r) ∧
  (∀ filename, filename ∉ target existing_files <$> api_models.*1 →
     replay events fs !! filename = fs !! filename).
Proof.
  revert fs events. induction api_models as [|[m r] items IH]; intros fs events.
  - intros [= <-] _ _. split; [|done]. by intros m r ?%elem_of_nil.
  - intros (ev1 & ev2 & Hstep & Hrest & ->)%run_steps_cons_Ok Hnd Hpre.
    rewrite !fmap_cons in Hnd. cbn [fst] in Hnd.
    apply NoDup_cons in Hnd as [Hfresh Hnd].
    destruct (process_step_Ok _ _ _ _ _ Hstep) as [Hholds Hframe].
    { intros f Hf. apply (Hpre m r); [left|done]. }
    destruct (IH _ _ Hrest Hnd) as [IHholds IHframe].
    { intros m' r' f' Hin Hreg. rewrite Hframe; [by apply (Hpre m' r'); [right|]|].
      intros Heq. apply Hfresh. rewrite <- Heq, <- (target_registered _ _ _ Hreg).
      apply list_elem_of_fmap. exists m'. split; [done|].
      apply list_elem_of_fmap. by exists (m', r'). }
    rewrite replay_app. split.
    + intros m' r' [[= -> ->]|Hin]%elem_of_cons; [|by apply IHholds].
      eapply holds_definition_ext; [|done]. by apply IHframe.
    + intros f Hf. rewrite !fmap_cons in Hf. cbn [fst] in Hf.
      apply not_elem_of_cons in Hf as [Hne Hf]. rewrite IHframe by done.
      by apply Hframe.
Qed.

(** When every identifier has a registered file whose fields match,
    the loop only prints that no change is needed. *)
Lemma process_loop_in_sync existing_files api_models fs :
  (∀ m r, (m, r) ∈ api_models →
     ∃ filename, oget (KStr m) existing_files = Some filename ∧
       holds_definition fs filename m r) →
  ∃ events,
    run_steps (process_step existing_files) api_models fs = (Ok (), events) ∧
    Forall (λ e, ∃ filename, e = Print (MsgNoChanges filename)) events.
Proof.
  induction api_models as [|[m r] items IH]; intros Hall.
  - by exists [].
  - destruct (Hall m r) as (f & Hreg & d & Hf & _ & Hmatch); [left|].
    destruct IH as (events & Hrun & Hev).
    { intros m' r' Hin. apply Hall. by right. }
    exists (Print (MsgNoChanges f) :: events).
    cbn [run_steps process_step]. rewrite Hreg, Hf. cbn [loaded load_prints app].
    rewrite (update_yaml_data_matches _ _ Hmatch). cbn [replay foldl].
    fold (replay [] fs). cbn. rewrite Hrun. split; [done|].
    constructor; [by eexists|done].
Qed.

(** * The deletion loop *)

Lemma stale_cons api_models k filename existing_files :
  stale api_models ((k, filename) :: existing_files) =
    if in_catalog api_models k then stale api_models existing_files
    else filename :: stale api_models existing_files.
Proof.
  unfold stale. rewrite filter_cons. cbn [fst].
  destruct (in_catalog api_models k).
  - by rewrite decide_False.
  - by rewrite decide_True.
Qed.

Lemma delete_loop_Ok api_models existing_files fs events :
  run_steps (delete_step api_models) existing_files fs = (Ok (), events) →
  ∀ filename,
    replay events fs !! filename =
      if decide (filename ∈ stale api_models existing_files) then None
      else fs !! filename.
Proof.
  revert fs events. induction existing_files as [|[k f] ex IH]; intros fs events.
  - intros [= <-] f. rewrite decide_False; [done|]. apply not_elem_of_nil.
  - intros (ev1 & ev2 & Hstep & Hrest & ->)%run_steps_cons_Ok f'.
    rewrite replay_app, (IH _ _ Hrest), stale_cons.
    unfold delete_step in Hstep. destruct (in_catalog api_models k).
    + by injection Hstep as <-.
    + destruct (fs !! f) eqn:Hf; [|done]. injection Hstep as <-. cbn.
      destruct (decide (f' ∈ stale api_models ex)) as [Hin|Hnin].
      * rewrite decide_True; [done|by right].
      * destruct (decide (f' = f)) as [->|Hne].
        -- rewrite decide_True by left. apply lookup_delete_eq.
        -- rewrite decide_False by (by apply not_elem_of_cons).
           by apply lookup_delete_ne.
Qed.

Lemma delete_loop_none api_models existing_files fs :
  (∀ k filename, (k, filename) ∈ existing_files → in_catalog api_models k = true) →
  run_steps (delete_step api_models) existing_files fs = (Ok (), []).
Proof.
  induction existing_files as [|[k f] ex IH]; intros Hall; [done|].
  cbn [run_steps delete_step]. rewrite (Hall k f) by left.
  cbn. rewrite IH; [done|]. intros k' f' Hin. apply (Hall k' f'). by right.
Qed.

Lemma elem_of_stale api_models existing_files filename :
  filename ∈ stale api_models existing_files ↔
  ∃ k, (k, filename) ∈ existing_files ∧ in_catalog api_models k = false.
Proof.
  unfold stale. rewrite list_elem_of_fmap. split.
  - intros ([k f] & -> & [? ?]%list_elem_of_filter). by exists k.
  - intros (k & Hin & Hcat). exists (k, filename). split; [done|].
    by apply list_elem_of_filter.
Qed.


(** * A successful run *)

Lemma NoDup_snd_elem {A B} (l : list (A * B)) a a' b :
  NoDup l.*2 → (a, b) ∈ l → (a', b) ∈ l → a = a'.
Proof.
  induction l as [|[a0 b0] l IH]; cbn; [by intros _ ?%elem_of_nil|].
  intros [Hb0 Hnd]%NoDup_cons [[= -> ->]|H1]%elem_of_cons [[= ->]|H2]%elem_of_cons.
  - done.
  - destruct Hb0. apply list_elem_of_fmap. by exists (a', b0).
  - simplify_eq. destruct Hb0. apply list_elem_of_fmap. by exists (a, b0).
  - by apply IH.
Qed.

Lemma elem_of_snd {A B} (l : list (A * B)) a b : (a, b) ∈ l → b ∈ l.*2.
Proof. intros H. apply list_elem_of_fmap. by exists (a, b). Qed.

Lemma elem_of_fst {A B} (l : list (A * B)) a b : (a, b) ∈ l → a ∈ l.*1.
Proof. intros H. apply list_elem_of_fmap. by exists (a, b). Qed.

Lemma NoDup_fmap_eq {A B} (f : A → B) (l : list A) x y :
  NoDup (f <$> l) → x ∈ l → y ∈ l → f x = f y → x = y.
Proof.
  induction l as [|a l IH]; [by intros _ ?%elem_of_nil|].
  rewrite fmap_cons. intros [Ha Hnd]%NoDup_cons [->|Hx]%elem_of_cons [->|Hy]%elem_of_cons Heq.
  - done.
  - destruct Ha. rewrite Heq. by apply list_elem_of_fmap_2.
  - destruct Ha. rewrite <- Heq. by apply list_elem_of_fmap_2.
  - by apply IH.
Qed.

(** The phases of a run that returns. *)
Lemma sync_yaml_files_Ok api_data w :
  (sync_yaml_files api_data w).1 = Ok () →
  ∃ existing_files prints ev1 ev2,
    Forall scan_print prints ∧
    scan_result (scanned_files api_data (files w))
                (map_to_list (scanned_files api_data (files w))).*1 [] =
      Ok existing_files ∧
    run_steps (process_step existing_files) (index_by_id api_data)
              (scanned_files api_data (files w)) = (Ok (), ev1) ∧
    run_steps (delete_step (index_by_id api_data)) existing_files
              (replay ev1 (scanned_files api_data (files w))) = (Ok (), ev2) ∧
    (sync_yaml_files api_data w).2 =
      extend w (WriteFile position_name (FText (position_content api_data))
                  :: prints ++ ev1 ++ ev2) ∧
    files (sync_yaml_files api_data w).2 =
      replay ev2 (replay ev1 (scanned_files api_data (files w))).
Proof.
  destruct (sync_yaml_files_eq api_data w) as (prints & Hprints & Heq).
  cbv zeta in Heq. rewrite Heq. clear Heq.
  set (fs1 := scanned_files api_data (files w)).
  destruct (scan_result fs1 _ []) as [ex|e] eqn:Hscan; [|intros [=]].
  destruct (run_steps (process_step ex) _ fs1) as [[[]|e] ev1] eqn:Hproc;
    [|intros [=]].
  destruct (run_steps (delete_step _) ex _) as [r ev2] eqn:Hdel.
  cbn [fst snd]. intros ->.
  exists ex, prints, ev1, ev2. split_and!; [done..| |].
  - by rewrite <- app_comm_cons.
  - cbn [files extend]. rewrite <- app_comm_cons.
    change (?e :: prints ++ ev1 ++ ev2) with ([e] ++ prints ++ ev1 ++ ev2).
    rewrite !replay_app.
    by rewrite (replay_prints prints) by (by apply scan_print_is_print).
Qed.

Lemma elem_of_new_ids fs api_data m :
  m ∈ new_ids fs api_data ↔
  m ∈ (index_by_id api_data).*1 ∧ oget (KStr m) (definitions fs) = None.
Proof.
  unfold new_ids. rewrite list_elem_of_filter, oget_None_not_elem_of. naive_solver.
Qed.

(** Under the two hypotheses on names, distinct identifiers have
    distinct target files. *)
Lemma targets_distinct fs api_data :
  fresh_names fs api_data →
  NoDup (target (definitions fs) <$> (index_by_id api_data).*1).
Proof.
  intros [Hnew Hfree].
  apply NoDup_fmap_2_strong; [|apply index_by_id_NoDup].
  intros m m' Hm Hm' Heq. unfold target in Heq.
  destruct (oget (KStr m) (definitions fs)) as [f|] eqn:Hf;
    destruct (oget (KStr m') (definitions fs)) as [f'|] eqn:Hf'; cbn in Heq.
  - subst f'. apply oget_Some_elem_of in Hf, Hf'.
    pose proof (NoDup_snd_elem _ _ _ _ (NoDup_definitions_files fs) Hf Hf').
    by simplify_eq.
  - exfalso. rewrite Forall_forall in Hfree. apply (Hfree f).
    + rewrite Heq. apply list_elem_of_fmap. exists m'. split; [done|].
      by apply elem_of_new_ids.
    + apply oget_Some_elem_of in Hf. by eapply elem_of_snd.
  - exfalso. rewrite Forall_forall in Hfree. apply (Hfree f').
    + rewrite <- Heq. apply list_elem_of_fmap. exists m. split; [done|].
      by apply elem_of_new_ids.
    + apply oget_Some_elem_of in Hf'. by eapply elem_of_snd.
  - apply (NoDup_fmap_eq new_filename (new_ids fs api_data)); [done| | |done];
      by apply elem_of_new_ids.
Qed.

Section successful_run.
Context (api_data : list api_model) (w : world).
Local Abbreviation fs1 := (scanned_files api_data (files w)).
Local Abbreviation ex := (definitions (scanned_files api_data (files w))).
Local Abbreviation items := (index_by_id api_data).
Local Abbreviation fs3 := (files (sync_yaml_files api_data w).2).
Hypothesis Hrun : (sync_yaml_files api_data w).1 = Ok ().
Hypothesis Hdistinct : distinct_models (scanned_files api_data (files w)).
Hypothesis Hfresh : fresh_names (scanned_files api_data (files w)) api_data.

Lemma registered_holds_model m filename :
  oget (KStr m) ex = Some filename →
  scannable filename = true ∧
  ∃ d, fs1 !! filename = Some (FYaml (VDict d)) ∧ oget "model" d = Some (VStr m).
Proof.
  intros Hreg%oget_Some_elem_of%elem_of_definitions.
  apply registration_Some in Hreg as (Hscan & c & Hc & Hkey).
  apply file_key_KStr in Hkey as (d & -> & Hm & _). split; [done|]. by exists d.
Qed.

Lemma target_not_stale m : m ∈ items.*1 → target ex m ∉ stale items ex.
Proof.
  intros Hm (k & Hin & Hcat)%elem_of_stale. unfold target in Hin.
  destruct (oget (KStr m) ex) as [f|] eqn:Hreg; cbn in Hin.
  - apply oget_Some_elem_of in Hreg.
    pose proof (NoDup_snd_elem _ _ _ _ (NoDup_definitions_files _) Hin Hreg) as ->.
    assert (in_catalog items (KStr m) = true); [|congruence].
    apply in_catalog_true. by exists m.
  - destruct Hfresh as [_ Hfree]. rewrite Forall_forall in Hfree.
    apply (Hfree (new_filename m)).
    + apply list_elem_of_fmap. exists m. split; [done|]. by apply elem_of_new_ids.
    + by eapply elem_of_snd.
Qed.

(** The directory after the run: the target files hold the definitions,
    the stale files are gone, the rest is as the scan saw it. *)
Lemma sync_final :
  (∀ m r, (m, r) ∈ items → holds_definition fs3 (target ex m) m r) ∧
  (∀ filename, filename ∈ stale items ex → fs3 !! filename = None) ∧
  (∀ filename, filename ∉ stale items ex →
     filename ∉ target ex <$> items.*1 → fs3 !! filename = fs1 !! filename).
Proof.
  destruct (sync_yaml_files_Ok _ _ Hrun)
    as (ex' & prints & ev1 & ev2 & _ & Hscan & Hproc & Hdel & _ & Hfiles).
  apply scan_result_definitions in Hscan as ->; [|done].
  pose proof (delete_loop_Ok _ _ _ _ Hdel) as Hdeleted.
  destruct (process_loop_Ok _ _ _ _ Hproc) as [Hholds Hframe].
  { by apply targets_distinct. }
  { intros m r f _ Hreg. by apply registered_holds_model. }
  rewrite Hfiles. split_and!.
  - intros m r Hin. eapply holds_definition_ext; [|by apply Hholds].
    rewrite Hdeleted, decide_False; [done|].
    apply target_not_stale. by eapply elem_of_fst.
  - intros f Hf. by rewrite Hdeleted, decide_True.
  - intros f Hstale Htarget. rewrite Hdeleted, decide_False by done.
    by apply Hframe.
Qed.

(** The definition files after the run are the target files. *)
Lemma sync_final_definitions filename k :
  registration fs3 filename = Ok (Some k) →
  ∃ m r, k = KStr m ∧ (m, r) ∈ items ∧ filename = target ex m.
Proof.
  destruct sync_final as (Hholds & Hstale & Hrest).
  intros (Hscan & c & Hc & Hkey)%registration_Some.
  assert (filename ∉ stale items ex) as Hns.
  { intros Hin. by rewrite (Hstale _ Hin) in Hc. }
  destruct (decide (filename ∈ target ex <$> items.*1)) as [Hin|Hnin].
  - apply list_elem_of_fmap in Hin as (m & -> & Hm).
    apply list_elem_of_fmap in Hm as ([m' r] & -> & Hin). cbn [fst] in *.
    destruct (Hholds _ _ Hin) as (d & Hd & Hmodel & _).
    rewrite Hd in Hc. injection Hc as <-.
    rewrite (file_key_model _ _ Hmodel) in Hkey. case_decide; [done|].
    injection Hkey as <-. by exists m', r.
  - exfalso. rewrite (Hrest _ Hns Hnin) in Hc.
    assert ((k, filename) ∈ ex) as Hreg.
    { apply elem_of_definitions, registration_Some. eauto. }
    destruct (in_catalog items k) eqn:Hcat.
    + apply in_catalog_true in Hcat as (m & -> & Hm).
      apply Hnin, list_elem_of_fmap. exists m. split; [|done].
      symmetry. apply target_registered. by apply elem_of_oget_NoDup.
    + apply Hns, elem_of_stale. by exists k.
Qed.

Lemma sync_final_registered m r :
  (m, r) ∈ items → m ≠ "" →
  registration fs3 (target ex m) = Ok (Some (KStr m)).
Proof.
  destruct sync_final as (Hholds & _ & _). intros Hin Hne.
  destruct (Hholds _ _ Hin) as (d & Hd & Hmodel & _).
  apply registration_Some. split.
  - unfold target. destruct (oget (KStr m) ex) as [f|] eqn:Hreg; cbn.
    + by apply registered_holds_model in Hreg as [? _].
    + apply scannable_new_filename.
  - eexists. split; [done|]. rewrite (file_key_model _ _ Hmodel).
    by rewrite decide_False.
Qed.

End successful_run.

(** C1 (as amended).  After a run that returns, from a directory in
    which no two definition files carry the same [model] value, and
    where the file names derived for the catalog identifiers that have no
    definition file are pairwise distinct and are not names of definition
    files, and for a catalog without the empty identifier: the [model]
    values of the definition files are exactly the catalog identifiers,
    and in each definition file the context size, the two prices, the
    two labels and the feature set have the values derived from the
    catalog record of its identifier. *)
Theorem sync_reconciles api_data w :
  (sync_yaml_files api_data w).1 = Ok () →
  distinct_models (scanned_files api_data (files w)) →
  fresh_names (scanned_files api_data (files w)) api_data →
  "" ∉ m_id <$> api_data →
  reconciled api_data (files (sync_yaml_files api_data w).2).
Proof.
  intros Hrun Hdistinct Hfresh Hne. unfold reconciled.
  pose proof (sync_final api_data w Hrun Hdistinct Hfresh) as (Hholds & _ & _).
  split.
  - intros k. split.
    + intros ([k' f] & -> & Hin%elem_of_definitions)%list_elem_of_fmap.
      apply (sync_final_definitions api_data w Hrun Hdistinct Hfresh)
        in Hin as (m & r & -> & Hin & _).
      exists m. split; [done|]. apply index_by_id_keys. by eapply elem_of_fst.
    + intros (m & -> & Hm%index_by_id_keys).
      apply list_elem_of_fmap in Hm as ([m' r] & -> & Hin). cbn [fst].
      eapply elem_of_fst, elem_of_definitions.
      apply (sync_final_registered api_data w Hrun Hdistinct Hfresh _ _ Hin).
      intros ->. apply Hne, index_by_id_keys. by eapply elem_of_fst.
  - intros k f Hin%elem_of_definitions.
    apply (sync_final_definitions api_data w Hrun Hdistinct Hfresh)
      in Hin as (m & r & -> & Hin & ->).
    destruct (Hholds _ _ Hin) as (d & Hd & Hmodel & Hmatch).
    exists m, r, d. split_and!; [done| |done..].
    apply elem_of_oget_NoDup; [apply index_by_id_NoDup|done].
Qed.


(** * A second run against the same catalog *)

Section second_run.
Context (api_data : list api_model) (w : world).
Local Abbreviation fs1 := (scanned_files api_data (files w)).
Local Abbreviation ex := (definitions (scanned_files api_data (files w))).
Local Abbreviation items := (index_by_id api_data).
Local Abbreviation w2 := ((sync_yaml_files api_data w).2).
Local Abbreviation fs3 := (files (sync_yaml_files api_data w).2).
Hypothesis Hrun : (sync_yaml_files api_data w).1 = Ok ().
Hypothesis Hdistinct : distinct_models (scanned_files api_data (files w)).
Hypothesis Hfresh : fresh_names (scanned_files api_data (files w)) api_data.
Hypothesis Hnonempty : "" ∉ m_id <$> api_data.
Hypothesis Hindex :
  position_name ∉ new_filename <$> new_ids (scanned_files api_data (files w)) api_data.

Lemma position_not_registered k : (k, position_name) ∉ ex.
Proof.
  intros (_ & c & Hc & Hkey)%elem_of_definitions%registration_Some.
  unfold scanned_files in Hc. rewrite lookup_insert_eq in Hc. by simplify_eq.
Qed.

Lemma position_kept : fs3 !! position_name = Some (FText (position_content api_data)).
Proof.
  destruct (sync_final api_data w Hrun Hdistinct Hfresh) as (_ & _ & Hrest).
  rewrite Hrest.
  - apply lookup_insert_eq.
  - intros (k & Hin & _)%elem_of_stale. by apply position_not_registered in Hin.
  - intros (m & Heq & Hm)%list_elem_of_fmap. unfold target in Heq.
    destruct (oget (KStr m) ex) as [f|] eqn:Hreg; cbn in Heq.
    + subst f. apply oget_Some_elem_of in Hreg.
      by apply position_not_registered in Hreg.
    + apply Hindex, list_elem_of_fmap. exists m. split; [done|].
      by apply elem_of_new_ids.
Qed.

Lemma rescanned_files : scanned_files api_data fs3 = fs3.
Proof. apply insert_id, position_kept. Qed.

Lemma second_scan_registrations filename : ∃ o, registration fs3 filename = Ok o.
Proof.
  destruct (sync_final api_data w Hrun Hdistinct Hfresh) as (Hholds & Hstale & Hrest).
  destruct (decide (filename ∈ stale items ex)) as [Hs|Hns].
  { apply registration_Ok. intros c Hc. by rewrite (Hstale _ Hs) in Hc. }
  destruct (decide (filename ∈ target ex <$> items.*1)) as [Hin|Hnin].
  - apply list_elem_of_fmap in Hin as (m & -> & Hm).
    apply list_elem_of_fmap in Hm as ([m' r] & -> & Hin). cbn [fst] in *.
    destruct (Hholds _ _ Hin) as (d & Hd & Hmodel & _).
    apply registration_Ok. intros c Hc. rewrite Hd in Hc. injection Hc as <-.
    rewrite (file_key_model _ _ Hmodel). case_decide; by eexists.
  - rewrite (registration_ext fs1) by by apply Hrest.
    destruct (sync_yaml_files_Ok _ _ Hrun) as (ex' & _ & _ & _ & _ & Hscan & _).
    destruct (fs1 !! filename) as [c|] eqn:Hc.
    + eapply scan_result_registrations; [done|].
      apply list_elem_of_fmap. exists (filename, c). split; [done|].
      by apply elem_of_map_to_list.
    + unfold registration. rewrite Hc. destruct (scannable filename); by eexists.
Qed.

Lemma second_distinct_models : distinct_models fs3.
Proof.
  unfold distinct_models. apply NoDup_fmap_fst.
  - intros k f f' Hf%elem_of_definitions Hf'%elem_of_definitions.
    apply (sync_final_definitions api_data w Hrun Hdistinct Hfresh)
      in Hf as (m & r & -> & _ & ->).
    apply (sync_final_definitions api_data w Hrun Hdistinct Hfresh)
      in Hf' as (m' & r' & [= <-] & _ & ->). done.
  - eapply NoDup_fmap_1, NoDup_definitions_files.
Qed.

Lemma second_scan :
  scan_result fs3 (map_to_list fs3).*1 [] = Ok (definitions fs3).
Proof.
  destruct (scan_result_total fs3 (map_to_list fs3).*1 []) as [ex2 Hex2].
  { intros f _. apply second_scan_registrations. }
  rewrite Hex2. f_equal.
  apply scan_result_definitions; [done|apply second_distinct_models].
Qed.

Lemma catalog_id_nonempty m r : (m, r) ∈ items → m ≠ "".
Proof.
  intros Hin ->. apply Hnonempty, index_by_id_keys. by eapply elem_of_fst.
Qed.

Lemma second_process :
  ∃ events,
    run_steps (process_step (definitions fs3)) items fs3 = (Ok (), events) ∧
    Forall (λ e, ∃ filename, e = Print (MsgNoChanges filename)) events.
Proof.
  destruct (sync_final api_data w Hrun Hdistinct Hfresh) as (Hholds & _ & _).
  apply process_loop_in_sync. intros m r Hin.
  exists (target ex m). split; [|by apply Hholds].
  apply elem_of_oget_NoDup; [apply second_distinct_models|].
  apply elem_of_definitions.
  apply (sync_final_registered api_data w Hrun Hdistinct Hfresh _ _ Hin).
  by eapply catalog_id_nonempty.
Qed.

Lemma second_delete fs :
  run_steps (delete_step items) (definitions fs3) fs = (Ok (), []).
Proof.
  apply delete_loop_none. intros k f Hin%elem_of_definitions.
  apply (sync_final_definitions api_data w Hrun Hdistinct Hfresh)
    in Hin as (m & r & -> & Hin & _).
  apply in_catalog_true. exists m. split; [done|]. by eapply elem_of_fst.
Qed.

Lemma no_changes_is_print events :
  Forall (λ e, ∃ filename, e = Print (MsgNoChanges filename)) events →
  Forall is_print events ∧ Forall (λ e, ¬ reports_change e) events.
Proof.
  intros H. split; (eapply Forall_impl; [done|]); intros e [f ->]; cbn; tauto.
Qed.

Lemma scan_print_no_change events :
  Forall scan_print events → Forall (λ e, ¬ reports_change e) events.
Proof. intros H. eapply Forall_impl; [done|]. intros [[]| |]; cbn; tauto. Qed.

Lemma second_run_outcome :
  ∃ events,
    sync_yaml_files api_data w2 = (Ok (), extend w2 events) ∧
    replay events fs3 = fs3 ∧
    Forall (λ e, ¬ reports_change e) events ∧
    WriteFile position_name (FText (position_content api_data)) ∈ events.
Proof.
  destruct (sync_yaml_files_eq api_data w2) as (prints & Hprints & Heq).
  cbv zeta in Heq. rewrite rescanned_files, second_scan in Heq.
  destruct second_process as (events & Hproc & Hevents).
  rewrite Hproc, second_delete in Heq. cbn [fst snd] in Heq.
  rewrite app_nil_r in Heq.
  destruct (no_changes_is_print _ Hevents) as [Hpr Hnc].
  eexists. split; [exact Heq|]. split_and!.
  - rewrite replay_app, replay_cons, (replay_prints prints), (replay_prints events);
      [|done|by apply scan_print_is_print].
    apply rescanned_files.
  - apply Forall_app. split; [|done].
    constructor; [|by apply scan_print_no_change]. cbn. by intros [].
  - apply elem_of_app. left. left.
Qed.

End second_run.

(** C2 (as amended).  After a run that returns, from a directory in
    which no two definition files carry the same [model] value, and
    where the file names derived for the catalog identifiers that have no
    definition file are pairwise distinct, are not names of definition
    files and are not the name of the index, and for a catalog without
    the empty identifier: a second run against the same catalog returns,
    writes only the index file, with the content it already has, removes
    nothing, reports no update, creation or deletion and no changed line,
    and leaves every file of the directory as the first run left it. *)
Theorem sync_idempotent api_data w :
  (sync_yaml_files api_data w).1 = Ok () →
  distinct_models (scanned_files api_data (files w)) →
  fresh_names (scanned_files api_data (files w)) api_data →
  "" ∉ m_id <$> api_data →
  position_name ∉
    new_filename <$> new_ids (scanned_files api_data (files w)) api_data →
  second_run_idle api_data (sync_yaml_files api_data w).2.
Proof.
  intros Hrun Hdistinct Hfresh Hnonempty Hindex. unfold second_run_idle.
  destruct (second_run_outcome api_data w Hrun Hdistinct Hfresh Hnonempty Hindex)
    as (events & Heq & Hfiles & Hnc & Hwrite).
  rewrite Heq. cbn [fst snd files extend]. split_and!; [done|done| |].
  - by apply position_kept.
  - by exists events.
Qed.


(** * The events of any run *)

Lemma scan_result_keys fs filenames existing_files existing_files' k :
  scan_result fs filenames existing_files = Ok existing_files' →
  k ∈ existing_files.*1 ∨ k ∈ (definitions_among fs filenames).*1 →
  k ∈ existing_files'.*1.
Proof.
  revert existing_files. induction filenames as [|f filenames IH]; intros ex; cbn.
  - intros [= ->] [?|?%elem_of_nil]; done.
  - intros (o & Hreg & Hrest)%result_bind_Ok Hk. rewrite Hreg in Hk.
    apply (IH _ Hrest). destruct o as [k'|]; cbn in *; [|done].
    rewrite elem_of_oset_keys. rewrite elem_of_cons in Hk. naive_solver.
Qed.

Lemma run_steps_events {A} (P : event → Prop)
    (step : A → gmap string file → result unit * list event) l fs :
  (∀ x fs, x ∈ l → Forall P (step x fs).2) → Forall P (run_steps step l fs).2.
Proof.
  revert fs. induction l as [|x l IH]; intros fs Hstep; [constructor|].
  cbn [run_steps]. pose proof (Hstep x fs (list_elem_of_here _ _)) as Hx.
  destruct (step x fs) as [[[]|e] ev1]; [|done].
  specialize (IH (replay ev1 fs) (λ y fs Hy, Hstep y fs (list_elem_of_further _ _ _ Hy))).
  destruct (run_steps step l (replay ev1 fs)) as [r ev2]. cbn [snd] in *.
  by apply Forall_app.
Qed.

(** What one iteration of the processing loop may write. *)
Lemma process_step_events existing_files m r fs :
  Forall (λ e, match e with
               | Print _ => True
               | RemoveFile _ => False
               | WriteFile f _ =>
                   oget (KStr m) existing_files = Some f ∨
                   (oget (KStr m) existing_files = None ∧ f = new_filename m)
               end) (process_step existing_files (m, r) fs).2.
Proof.
  unfold process_step. destruct (oget (KStr m) existing_files) as [f|].
  - assert (Forall (λ e, match e with
               | Print _ => True
               | RemoveFile _ => False
               | WriteFile f' _ => Some f = Some f' ∨ (Some f = None ∧ f' = new_filename m)
               end) (load_prints f (fs !! f))) as Hload.
    { eapply Forall_impl; [apply load_prints_print|]. by intros [[]| |]. }
    destruct (update_yaml_data r _) as [[d' [|c ch]]|e]; cbn [snd]; [| |done].
    + apply Forall_app. split; [done|]. by repeat constructor.
    + apply Forall_app. split; [done|]. constructor; [cbn; by left|].
      constructor; [done|]. by apply Forall_fmap, Forall_true.
  - destruct (create_yaml_template m r); cbn [snd]; [|constructor].
    constructor; [cbn; by right|]. by repeat constructor.
Qed.

Lemma delete_step_events api_models k filename fs :
  Forall (λ e, match e with
               | Print _ => True
               | RemoveFile f => f = filename
               | WriteFile _ _ => False
               end) (delete_step api_models (k, filename) fs).2.
Proof.
  unfold delete_step. destruct (in_catalog api_models k); [constructor|].
  destruct (fs !! filename); by repeat constructor.
Qed.

Lemma sync_events api_data w :
  ∃ events,
    (sync_yaml_files api_data w).2 = extend w events ∧
    Forall (run_event api_data (files w)) events.
Proof.
  destruct (sync_yaml_files_eq api_data w) as (prints & Hprints & Heq).
  cbv zeta in Heq. rewrite Heq. clear Heq.
  set (fs1 := scanned_files api_data (files w)).
  assert (Forall (run_event api_data (files w))
            (WriteFile position_name (FText (position_content api_data)) :: prints))
    as Hev0.
  { constructor; [cbn; by left|]. eapply Forall_impl; [done|]. by intros [[]| |]. }
  destruct (scan_result fs1 _ []) as [ex|e] eqn:Hscan; [|by eexists].
  assert (∀ k f, (k, f) ∈ ex → f ∈ (definitions fs1).*2) as Hreg.
  { intros k f Hin. destruct (scan_result_elem _ _ _ _ _ _ Hscan Hin) as [?%elem_of_nil|?];
      [done|]. eapply elem_of_snd. by apply elem_of_definitions. }
  assert (Forall (run_event api_data (files w))
            (run_steps (process_step ex) (index_by_id api_data) fs1).2) as Hev1.
  { apply run_steps_events. intros [m r] fs Hin.
    eapply Forall_impl; [apply process_step_events|].
    intros [| f c|]; cbn; [done| |done].
    intros [Hf|[Hnone ->]].
    - right; left. apply oget_Some_elem_of in Hf. by eapply Hreg.
    - right; right. apply list_elem_of_fmap. exists m. split; [done|].
      apply list_elem_of_filter. split; [|by eapply elem_of_fst].
      intros Hk. apply oget_None_not_elem_of in Hnone. apply Hnone.
      eapply scan_result_keys; [done|by right]. }
  destruct (run_steps (process_step ex) _ fs1) as [[[]|e] ev1]; cbn [snd] in Hev1.
  2:{ eexists. split; [done|]. by apply Forall_app. }
  eexists. split; [done|]. apply Forall_app. split; [done|].
  apply Forall_app. split; [done|].
  apply run_steps_events. intros [k f] fs Hin.
  eapply Forall_impl; [apply delete_step_events|].
  intros [| |f']; cbn; [done..|]. intros ->. by eapply Hreg.
Qed.

Lemma lacks_model_unregistered api_data fs filename :
  lacks_model fs filename ∨ not_a_mapping fs filename →
  filename ∉ (definitions (scanned_files api_data fs)).*2.
Proof.
  intros Hfile ([k f] & -> & Hin)%list_elem_of_fmap. cbn [snd] in *.
  apply elem_of_definitions, registration_Some in Hin as (_ & c & Hc & Hkey).
  unfold scanned_files in Hc.
  destruct (decide (position_name = f)) as [<-|Hne].
  - rewrite lookup_insert_eq in Hc. by simplify_eq.
  - rewrite lookup_insert_ne in Hc by done.
    destruct Hfile as [(d & Hd & Hfalsy)|Hbad].
    + rewrite Hd in Hc. injection Hc as <-. destruct d as [|kv d]; [done|].
      cbn [file_key] in Hkey. by rewrite Hfalsy in Hkey.
    + unfold not_a_mapping in Hbad. rewrite Hc in Hbad.
      by destruct c as [[]| |].
Qed.

(** C10 (as amended).  A file that parses to a mapping without a truthy
    [model] is never removed by a run, whatever its outcome, and is
    written only if it has the name of the index file or the name
    derived for a catalog identifier that no definition file carries:
    neither the update loop nor the deletion loop touches it.  With any
    other name its content after the run is what it was. *)
Theorem unregistered_file_spared api_data w filename :
  lacks_model (files w) filename →
  (∃ events,
     (sync_yaml_files api_data w).2 = extend w events ∧
     Forall (spares api_data (files w) filename) events) ∧
  (filename ≠ position_name →
   filename ∉ new_filename <$> new_ids (scanned_files api_data (files w)) api_data →
   files (sync_yaml_files api_data w).2 !! filename = files w !! filename).
Proof.
  intros Hlacks.
  pose proof (lacks_model_unregistered api_data _ _ (or_introl Hlacks)) as Hunreg.
  destruct (sync_events api_data w) as (events & Heq & Hev).
  assert (Forall (spares api_data (files w) filename) events) as Hspares.
  { eapply Forall_impl; [done|]. intros [|f c|f]; cbn; [done| |].
    - intros [->|[Hf|Hf]] ->; [by left|done|by right].
    - by intros Hf ->. }
  split; [by exists events|].
  intros Hpos Hnew. rewrite Heq. cbn [files extend]. apply replay_untouched.
  eapply Forall_impl; [done|]. intros [|f c|f]; cbn; [tauto| |done].
  intros Hf ->. destruct Hf as [?|?]; done.
Qed.

(** * Files that are not mappings *)

Lemma process_loop_created existing_files api_models fs events m r :
  run_steps (process_step existing_files) api_models fs = (Ok (), events) →
  (m, r) ∈ api_models →
  oget (KStr m) existing_files = None →
  ∃ d, create_yaml_template m r = Ok d ∧
    WriteFile (new_filename m) (FYaml (VDict d)) ∈ events ∧
    Print (MsgCreated (new_filename m)) ∈ events.
Proof.
  revert fs events. induction api_models as [|[m' r'] items IH]; intros fs events.
  - by intros _ ?%elem_of_nil.
  - intros (ev1 & ev2 & Hstep & Hrest & ->)%run_steps_cons_Ok
      [[= <- <-]|Hin]%elem_of_cons Hnone.
    + unfold process_step in Hstep. rewrite Hnone in Hstep.
      destruct (create_yaml_template m r) as [d|e]; [|done].
      injection Hstep as <-. exists d. split; [done|].
      split; apply elem_of_app; left; [left|right; left].
    + destruct (IH _ _ Hrest Hin Hnone) as (d & Hd & Hw & Hp).
      exists d. split; [done|]. split; apply elem_of_app; by right.
Qed.

(** C7.  For a file whose content is not a mapping or cannot be
    parsed: loading it returns the empty mapping after one warning; the
    scan of the run does not register it; and in a run that returns, each
    catalog identifier that no definition file carries, such as that of
    the unreadable file, gets a new definition written from the template
    and reported as created. *)
Theorem malformed_file_treated_as_absent api_data w filename :
  not_a_mapping (files w) filename →
  (∃ warning,
     load_yaml_file filename w = (Ok [], extend w [Print warning]) ∧
     (warning = MsgWarnNotDict filename ∨ warning = MsgErrorLoading filename)) ∧
  (∀ existing_files,
     (for_fold (map_to_list (files (create_position_yaml api_data w).2)).*1
               scan_file [] (create_position_yaml api_data w).2).1 =
       Ok existing_files →
     filename ∉ existing_files.*2) ∧
  ((sync_yaml_files api_data w).1 = Ok () →
   ∀ m r,
     (m, r) ∈ index_by_id api_data →
     KStr m ∉ (definitions (scanned_files api_data (files w))).*1 →
     ∃ d events,
       create_yaml_template m r = Ok d ∧
       (sync_yaml_files api_data w).2 = extend w events ∧
       WriteFile (new_filename m) (FYaml (VDict d)) ∈ events ∧
       Print (MsgCreated (new_filename m)) ∈ events).
Proof.
  intros Hbad. split_and!.
  - rewrite load_yaml_file_eq. unfold not_a_mapping in Hbad.
    destruct (files w !! filename) as [[[]| |]|]; try done; cbn; eauto.
  - intros ex Hscan.
    destruct (scan_eq (map_to_list (files (create_position_yaml api_data w).2)).*1
                [] (create_position_yaml api_data w).2) as (prints & _ & Heq).
    rewrite Heq in Hscan. cbn [fst] in Hscan.
    intros ([k f] & -> & Hin)%list_elem_of_fmap. cbn [snd] in *.
    destruct (scan_result_elem _ _ _ _ _ _ Hscan Hin) as [?%elem_of_nil|Hreg]; [done|].
    apply (lacks_model_unregistered api_data (files w) f (or_intror Hbad)).
    eapply elem_of_snd. by apply elem_of_definitions.
  - intros Hrun m r Hin Hnew.
    destruct (sync_yaml_files_Ok _ _ Hrun)
      as (ex & prints & ev1 & ev2 & _ & Hscan & Hproc & _ & Hw & _).
    destruct (process_loop_created _ _ _ _ m r Hproc Hin) as (d & Hd & Hwrite & Hprint).
    { apply oget_None_not_elem_of. intros ([k f] & Hkeq & Hk)%list_elem_of_fmap.
      cbn [fst] in Hkeq. subst k. apply Hnew.
      destruct (scan_result_elem _ _ _ _ _ _ Hscan Hk) as [?%elem_of_nil|Hreg]; [done|].
      eapply elem_of_fst. by apply elem_of_definitions. }
    exists d. eexists. split; [done|]. split; [exact Hw|].
    split; right; apply elem_of_app; right; apply elem_of_app; by left.
Qed.


(** * Missing prices *)








(** * The credential validation of the provider *)

(** C8.  The validation returns when the probe returns; it raises the
    credential error of the probe unchanged and without logging; for any
    other exception of the probe it logs the failure once, under the
    provider's name, and raises that exception; so it raises exactly when
    the probe does, and what it raises is what the probe raised. *)
Theorem validate_provider_credentials_outcome
    {model_instance credentials : Type}
    (get_model_instance : Provider.ModelType → Provider.outcome model_instance)
    (validate_credentials :
       model_instance → string → credentials → Provider.outcome unit)
    (provider : string) (creds : credentials) :
  let probe := Provider.probe get_model_instance validate_credentials creds in
  let result :=
    Provider.validate_provider_credentials
      get_model_instance validate_credentials provider creds in
  (probe = Provider.Returns () → result = (Provider.Returns (), [])) ∧
  (∀ d, probe = Provider.Raises (Provider.CredentialsValidateFailedError d) →
        result = (Provider.Raises (Provider.CredentialsValidateFailedError d), [])) ∧
  (∀ d, probe = Provider.Raises (Provider.OtherException d) →
        result = (Provider.Raises (Provider.OtherException d),
                  [provider +:+ " credentials validate failed"])) ∧
  (∀ e, result.1 = Provider.Raises e ↔ probe = Provider.Raises e).
Proof.
  intros probe result. unfold result, Provider.validate_provider_credentials.
  fold probe. destruct probe as [[]|[d|d]]; split_and!; try done; try naive_solver.
Qed.

Lemma validate_provider_credentials_outcome_witness :
  (Provider.validate_provider_credentials
     (λ _, Provider.Returns ())
     (λ (_ : unit) _ (key : string),
        if decide (key = "secret") then Provider.Returns ()
        else Provider.Raises (Provider.CredentialsValidateFailedError "invalid key"))
     "novita" "wrong").1 =
  Provider.Raises (Provider.CredentialsValidateFailedError "invalid key").
Proof.
  apply (validate_provider_credentials_outcome
           (λ _, Provider.Returns ())
           (λ (_ : unit) _ (key : string),
              if decide (key = "secret") then Provider.Returns ()
              else Provider.Raises (Provider.CredentialsValidateFailedError "invalid key"))
           "novita" "wrong").
  reflexivity.
Defined.


(** * Sample runs *)

(** C1 (counterexample).  The one definition file is [foo.yaml], of
    [acme/foo]; the catalog lists [zeta/foo] instead.  The run writes the
    new definition to [foo.yaml] and then removes that file as the stale
    file of [acme/foo]: it returns, and no definition file is left. *)
Lemma sync_reconciles_counterexample :
  (sync_yaml_files moved_catalog (World moved_directory [])).1 = Ok () ∧
  ¬ reconciled moved_catalog
      (files (sync_yaml_files moved_catalog (World moved_directory [])).2).
Proof.
  split; [by vm_compute|]. intros [Hkeys _].
  assert (KStr "zeta/foo" ∈
            (definitions
               (files (sync_yaml_files moved_catalog (World moved_directory [])).2)).*1)
    as Hin.
  { apply Hkeys. exists "zeta/foo". split; [done|]. by left. }
  assert (definitions
            (files (sync_yaml_files moved_catalog (World moved_directory [])).2) = [])
    as Hnone by (by vm_compute).
  rewrite Hnone in Hin. by apply elem_of_nil in Hin.
Qed.

(** C2 (counterexample).  In the same situation the second run finds no
    definition of [zeta/foo] and creates [foo.yaml] again. *)
Lemma sync_idempotent_counterexample :
  (sync_yaml_files moved_catalog (World moved_directory [])).1 = Ok () ∧
  ¬ second_run_idle moved_catalog
      (sync_yaml_files moved_catalog (World moved_directory [])).2.
Proof.
  split; [by vm_compute|]. intros (_ & Hfiles & _).
  apply (f_equal (λ fs : gmap string file, fs !! "foo.yaml")) in Hfiles.
  vm_compute in Hfiles. discriminate Hfiles.
Qed.

(** C10 (counterexample).  A draft without [model] under the name
    derived for the new identifier [acme/foo] is overwritten by the new
    definition. *)
Lemma unregistered_file_counterexample :
  lacks_model draft_directory "foo.yaml" ∧
  files (sync_yaml_files foo_catalog (World draft_directory [])).2 !! "foo.yaml"
    ≠ draft_directory !! "foo.yaml".
Proof.
  split.
  - eexists. split; [by vm_compute|done].
  - vm_compute. discriminate.
Qed.

Lemma sample_run_returns :
  (sync_yaml_files sample_catalog (World sample_directory [])).1 = Ok ().
Proof. by vm_compute. Defined.

Lemma sample_distinct_models :
  distinct_models (scanned_files sample_catalog sample_directory).
Proof. unfold distinct_models. refine (bool_decide_unpack _ _). by vm_compute. Defined.

Lemma sample_fresh_names :
  fresh_names (scanned_files sample_catalog sample_directory) sample_catalog.
Proof. unfold fresh_names. refine (bool_decide_unpack _ _). by vm_compute. Defined.

Lemma sample_nonempty_ids : "" ∉ m_id <$> sample_catalog.
Proof. refine (bool_decide_unpack _ _). by vm_compute. Defined.

Lemma sample_index_name :
  position_name ∉
    new_filename <$> new_ids (scanned_files sample_catalog sample_directory)
                             sample_catalog.
Proof. refine (bool_decide_unpack _ _). by vm_compute. Defined.

Lemma sync_reconciles_witness :
  reconciled sample_catalog
    (files (sync_yaml_files sample_catalog (World sample_directory [])).2).
Proof.
  apply (sync_reconciles sample_catalog (World sample_directory [])).
  - exact sample_run_returns.
  - exact sample_distinct_models.
  - exact sample_fresh_names.
  - exact sample_nonempty_ids.
Defined.

Lemma sync_idempotent_witness :
  second_run_idle sample_catalog
    (sync_yaml_files sample_catalog (World sample_directory [])).2.
Proof.
  apply (sync_idempotent sample_catalog (World sample_directory [])).
  - exact sample_run_returns.
  - exact sample_distinct_models.
  - exact sample_fresh_names.
  - exact sample_nonempty_ids.
  - exact sample_index_name.
Defined.

Lemma unregistered_file_spared_witness :
  lacks_model draft_directory "foo.yaml" ∧
  ∃ events,
    (sync_yaml_files sample_catalog (World draft_directory [])).2 =
      extend (World draft_directory []) events ∧
    Forall (spares sample_catalog draft_directory "foo.yaml") events.
Proof.
  assert (lacks_model draft_directory "foo.yaml") as Hlacks.
  { eexists. split; [by vm_compute|done]. }
  split; [done|].
  apply (unregistered_file_spared sample_catalog (World draft_directory []) "foo.yaml").
  exact Hlacks.
Defined.

Lemma malformed_file_treated_as_absent_witness :
  not_a_mapping broken_directory "foo.yaml" ∧
  ∃ warning,
    load_yaml_file "foo.yaml" (World broken_directory []) =
      (Ok [], extend (World broken_directory []) [Print warning]) ∧
    (warning = MsgWarnNotDict "foo.yaml" ∨ warning = MsgErrorLoading "foo.yaml").
Proof.
  assert (not_a_mapping broken_directory "foo.yaml") as Hbad by (by vm_compute).
  split; [done|].
  apply (malformed_file_treated_as_absent foo_catalog (World broken_directory [])
           "foo.yaml").
  exact Hbad.
Defined.


(** * Each hypothesis of the amended claims is needed *)

Local Ltac not_reconciled m :=
  intros [Hkeys _];
  match goal with
  | Hkeys : ∀ k, k ∈ (definitions ?fs).*1 ↔ _ |- _ =>
      let Hdefs := fresh in
      assert (∃ l, definitions fs = l ∧ bool_decide (KStr m ∈ l.*1) = false)
        as (l & Hdefs & Hnot) by (eexists; split; [by vm_compute|by vm_compute]);
      apply bool_decide_eq_false in Hnot; apply Hnot;
      rewrite <- Hdefs; apply Hkeys; exists m; split; [done|];
      refine (bool_decide_unpack _ _); by vm_compute
  end.

(** Two new identifiers with one derived name: the second definition
    replaces the first. *)
Example clashing_names_not_reconciled :
  (sync_yaml_files clashing_catalog (World ∅ [])).1 = Ok () ∧
  ¬ reconciled clashing_catalog
      (files (sync_yaml_files clashing_catalog (World ∅ [])).2).
Proof. split; [by vm_compute|]. not_reconciled "acme/foo". Qed.

(** The definition created for the empty identifier has a falsy [model]. *)
Example empty_identifier_not_reconciled :
  (sync_yaml_files anonymous_catalog (World ∅ [])).1 = Ok () ∧
  ¬ reconciled anonymous_catalog
      (files (sync_yaml_files anonymous_catalog (World ∅ [])).2).
Proof. split; [by vm_compute|]. not_reconciled "". Qed.

(** Of two files with the same stale identifier only one is removed. *)
Example duplicate_models_not_reconciled :
  (sync_yaml_files [] (World duplicate_directory [])).1 = Ok () ∧
  ¬ reconciled [] (files (sync_yaml_files [] (World duplicate_directory [])).2).
Proof.
  split; [by vm_compute|]. intros [Hkeys _].
  destruct (Hkeys (KStr "acme/old")) as [Hin _].
  destruct Hin as (m & _ & Hm).
  - refine (bool_decide_unpack _ _). by vm_compute.
  - by apply elem_of_nil in Hm.
Qed.

(** A definition created under the name of the index is overwritten by
    the index at the start of the second run and created again. *)
Example index_name_not_idle :
  (sync_yaml_files index_named_catalog (World ∅ [])).1 = Ok () ∧
  ¬ second_run_idle index_named_catalog
      (sync_yaml_files index_named_catalog (World ∅ [])).2.
Proof.
  split; [by vm_compute|]. intros (_ & _ & Hindex & _).
  vm_compute in Hindex. discriminate Hindex.
Qed.
